(** * pytraverser: the navigation core of the terminal tree browser

    A shallow embedding of [src/pytraverser.py].  The Python program keeps a
    tree of mutable [_Node] objects that refer to each other (children lists,
    parent back-references) and are compared by identity, so the embedding
    keeps an explicit object store: a node is an address into a heap, a fresh
    object is appended at the end of the heap, and an attribute assignment
    rewrites the record stored at the address.

    The external collaborators are kept abstract:
    - the MDSplus data source is a class [DataSource] with a state of its own;
      every call may return normally or raise;
    - the terminal is reduced to the sequence of screen-mode commands the
      program issues; drawing (erase, addnstr, hline, refresh, the row loop
      with its leaf marker), keypad and cursor visibility have no influence
      on the navigation state and are left out, and so are the faults of the
      terminal itself;
    - the keyboard is a finite list of input events; when it is used up the
      loop is blocked in [getch].

    The session is given twice: first as it runs while the interpreter's
    recursion limit is not reached ([iteration], [_ui], [tree_select]), then
    under a budget of nested calls ([iteration_within], [_ui_within],
    [tree_select_within]), where the recursive walk of lines 31-35 may raise
    RecursionError.  What the terminal receives in a call, with the part of
    the curses library in it, is [tree_select_out]. *)

From stdpp Require Import base option list strings relations.
From Stdlib Require Import ZArith Lia.

Open Scope Z_scope.

(** ** Python values and control flow *)

(** The two exception classes the program tells apart: [except Exception]
    catches the first, [except KeyboardInterrupt] the second. *)
Inductive exn := Exception | KeyboardInterrupt.

Inductive result (A : Type) :=
  | Ok (a : A)
  | Raise (e : exn).
Arguments Ok {A} a.
Arguments Raise {A} e.

(** [l[i]] with Python's negative indices; [None] is IndexError. *)
Definition py_index {A} (l : list A) (i : Z) : option A :=
  let n := Z.of_nat (length l) in
  if 0 <=? i then l !! Z.to_nat i
  else if - n <=? i then l !! Z.to_nat (n + i)
  else None.

(** Truth value of a list: [if visible:] *)
Definition truthy {A} (l : list A) : bool :=
  match l with [] => false | _ :: _ => true end.

(** Key codes: [ord] of the letters, and the ncurses codes of the arrows
    (curses.h: KEY_DOWN 0402, KEY_UP 0403, KEY_LEFT 0404, KEY_RIGHT 0405). *)
Definition ord_q : Z := 113.
Definition ord_k : Z := 107.
Definition ord_j : Z := 106.
Definition ord_l : Z := 108.
Definition ord_h : Z := 104.
Definition ord_s : Z := 115.
Definition ord_space : Z := 32.
Definition KEY_DOWN : Z := 258.
Definition KEY_UP : Z := 259.
Definition KEY_LEFT : Z := 260.
Definition KEY_RIGHT : Z := 261.

(** What [stdscr.getch()] delivers: a key code, or an interrupt raised while
    the call is blocked. *)
Inductive input :=
  | Key (ch : Z)
  | Interrupt.

(** Screen-mode commands written to the terminal by [_enter_alt_screen] and
    [_exit_alt_screen] (terminfo smcup/rmcup or the ANSI fallback: both
    branches of each function issue the same command). *)
Inductive term_event := EnterAlt | ExitAlt.

(** ** The data source *)

(** [MDSplus.TreeNode] objects with the three things the program asks of
    them.  [DS] is the state of the external source. *)
Class DataSource (TreeNode DS : Type) := {
  name : TreeNode → string;
  getMembers : TreeNode → DS → result (list TreeNode) * DS;
  getChildren : TreeNode → DS → result (list TreeNode) * DS;
}.

Abbreviation addr := nat (only parsing).

Section Model.
Context {TreeNode DS : Type} `{!DataSource TreeNode DS}.

(** [get_children], lines 9-15. *)
Definition get_children (node : TreeNode) (s : DS)
  : result (list TreeNode) * DS :=
  match getMembers node s with
  | (Raise e, s1) => (Raise e, s1)
  | (Ok members, s1) =>
      match getChildren node s1 with
      | (Raise e, s2) => (Raise e, s2)
      | (Ok children, s2) => (Ok (members ++ children), s2)
      end
  end.

(** [class _Node], lines 17-25.  [parent] and [children] hold addresses. *)
Record _Node := mk_Node {
  id : TreeNode;
  label : string;
  parent : option addr;
  children : list addr;
  loaded : bool;
  expanded : bool;
}.

(** [_Node.__init__] *)
Definition new_Node (node_id : TreeNode) (parent : option addr) : _Node :=
  {| id := node_id; label := name node_id; parent := parent;
     children := []; loaded := false; expanded := false |}.

(** Attribute assignments. *)
Definition set_children (cs : list addr) (nd : _Node) : _Node :=
  {| id := id nd; label := label nd; parent := parent nd;
     children := cs; loaded := loaded nd; expanded := expanded nd |}.
Definition set_loaded (b : bool) (nd : _Node) : _Node :=
  {| id := id nd; label := label nd; parent := parent nd;
     children := children nd; loaded := b; expanded := expanded nd |}.
Definition set_expanded (b : bool) (nd : _Node) : _Node :=
  {| id := id nd; label := label nd; parent := parent nd;
     children := children nd; loaded := loaded nd; expanded := b |}.

(** A new object gets the next free address. *)
Definition alloc (h : list _Node) (nd : _Node) : list _Node * addr :=
  (h ++ [nd], length h).

(** [[_Node(cid, node) for cid in kids]] *)
Fixpoint alloc_children (h : list _Node) (node : addr) (kids : list TreeNode)
  : list _Node * list addr :=
  match kids with
  | [] => (h, [])
  | cid :: kids' =>
      let '(h1, c) := alloc h (new_Node cid (Some node)) in
      let '(h2, cs) := alloc_children h1 node kids' in
      (h2, c :: cs)
  end.

(** [_build_visible], lines 29-37.  [walk] appends to the shared [out]; the
    recursion follows the heap, so it takes fuel, and [None] stands for a
    walk that does not finish (or meets an address outside the heap). *)
Fixpoint walk (fuel : nat) (h : list _Node) (n : addr) (depth : nat)
    (out : list (addr * nat)) : option (list (addr * nat)) :=
  match fuel with
  | O => None
  | S fuel' =>
      nd ← h !! n;
      let out := out ++ [(n, depth)] in
      if expanded nd then
        foldl (λ acc c, out' ← acc; walk fuel' h c (S depth) out')
              (Some out) (children nd)
      else Some out
  end.

Definition _build_visible (fuel : nat) (h : list _Node) (root : addr)
  : option (list (addr * nat)) :=
  walk fuel h root 0%nat [].

(** The traversal in the words of the specification: the node itself at its
    depth, followed, if and only if it is expanded, by the traversals of its
    children in their order, one level deeper. *)
Fixpoint preorder (fuel : nat) (h : list _Node) (n : addr) (depth : nat)
  : option (list (addr * nat)) :=
  match fuel with
  | O => None
  | S fuel' =>
      nd ← h !! n;
      if expanded nd then
        rows ← mapM (λ c, preorder fuel' h c (S depth)) (children nd);
        Some ((n, depth) :: concat rows)
      else Some [(n, depth)]
  end.


(** ** The navigation controller *)

(** The variables of [_ui] that outlive one pass of the loop, together with
    the object store, the state of the data source and the commands sent to
    the terminal.  [fetched] is instrumentation: the nodes for which
    [get_children] was called, in call order. *)
Record state := mk_state {
  heap : list _Node;
  root : addr;
  cursor : Z;
  ds : DS;
  fetched : list addr;
  screen : list term_event;
}.

Definition with_heap (h : list _Node) (st : state) : state :=
  {| heap := h; root := root st; cursor := cursor st; ds := ds st;
     fetched := fetched st; screen := screen st |}.
Definition with_cursor (c : Z) (st : state) : state :=
  {| heap := heap st; root := root st; cursor := c; ds := ds st;
     fetched := fetched st; screen := screen st |}.
Definition with_fetch (node : addr) (s : DS) (st : state) : state :=
  {| heap := heap st; root := root st; cursor := cursor st; ds := s;
     fetched := fetched st ++ [node]; screen := screen st |}.

(** [node.attr = v] *)
Definition update (node : addr) (f : _Node → _Node) (st : state) : state :=
  with_heap (alter f node (heap st)) st.

(** How a piece of the loop body ends. *)
Inductive outcome :=
  | Continue                                  (* on to the next pass *)
  | Break (selected_path : option TreeNode)   (* [break] *)
  | Raised (e : exn)                          (* an exception leaves [_ui] *)
  | Stuck.               (* model only: fuel used up or address not in heap *)

(** [_build_visible(root)] in the current state, with as many levels of
    recursion as there are objects: the call as it runs while the
    interpreter's recursion limit is not reached.  The limit itself is in
    [build_visible_within] below. *)
Definition visible_of (st : state) : option (list (addr * nat)) :=
  _build_visible (length (heap st)) (heap st) (root st).

(** Line 112 (under the test of line 111). *)
Definition clamp (cursor : Z) (visible : list (addr * nat)) : Z :=
  if truthy visible
  then Z.max 0 (Z.min cursor (Z.of_nat (length visible) - 1))
  else cursor.

(** The block that occurs three times (lines 154-157, 178-181, 191-194):
<<
    if not node.loaded:
        kids = get_children(node.id)
        node.children = [_Node(cid, node) for cid in kids]
        node.loaded = True
>>  *)
Definition load (node : addr) (st : state) : state * outcome :=
  match heap st !! node with
  | None => (st, Stuck)
  | Some nd =>
      if loaded nd then (st, Continue)
      else
        let '(r, s1) := get_children (id nd) (ds st) in
        let st1 := with_fetch node s1 st in
        match r with
        | Raise e => (st1, Raised e)
        | Ok kids =>
            let '(h1, cs) := alloc_children (heap st1) node kids in
            (update node (set_loaded true)
               (update node (set_children cs) (with_heap h1 st1)), Continue)
        end
  end.

(** Lines 170-173: the first row whose node is the object [p]. *)
Fixpoint index_of (p : addr) (pv : list (addr * nat)) : option nat :=
  match pv with
  | [] => None
  | (n, _) :: pv' => if decide (n = p) then Some 0%nat else S <$> index_of p pv'
  end.

(** Lines 150-159. *)
Definition key_right (visible : list (addr * nat)) (st : state)
  : state * outcome :=
  if negb (truthy visible) then (st, Continue)
  else match py_index visible (cursor st) with
  | None => (st, Raised Exception)
  | Some (node, _) =>
      match load node st with
      | (st1, Continue) =>
          match heap st1 !! node with
          | None => (st1, Stuck)
          | Some nd =>
              if truthy (children nd)
              then (update node (set_expanded true) st1, Continue)
              else (st1, Continue)
          end
      | other => other
      end
  end.

(** Lines 160-173. *)
Definition key_left (visible : list (addr * nat)) (st : state)
  : state * outcome :=
  if negb (truthy visible) then (st, Continue)
  else match py_index visible (cursor st) with
  | None => (st, Raised Exception)
  | Some (node, _) =>
      match heap st !! node with
      | None => (st, Stuck)
      | Some nd =>
          if expanded nd then (update node (set_expanded false) st, Continue)
          else match parent nd with
          | None => (st, Continue)
          | Some p =>
              match visible_of st with
              | None => (st, Stuck)
              | Some pv =>
                  match index_of p pv with
                  | Some idx => (with_cursor (Z.of_nat idx) st, Continue)
                  | None => (st, Continue)
                  end
              end
          end
      end
  end.

(** Lines 174-186. *)
Definition key_enter (visible : list (addr * nat)) (st : state)
  : state * outcome :=
  if negb (truthy visible) then (st, Continue)
  else match py_index visible (cursor st) with
  | None => (st, Raised Exception)
  | Some (node, _) =>
      match load node st with
      | (st1, Continue) =>
          match heap st1 !! node with
          | None => (st1, Stuck)
          | Some nd => (st1, Break (Some (id nd)))
          end
      | other => other
      end
  end.

(** Lines 187-195. *)
Definition key_space (visible : list (addr * nat)) (st : state)
  : state * outcome :=
  if negb (truthy visible) then (st, Continue)
  else match py_index visible (cursor st) with
  | None => (st, Raised Exception)
  | Some (node, _) =>
      match load node st with
      | (st1, Continue) =>
          match heap st1 !! node with
          | None => (st1, Stuck)
          | Some nd =>
              let e := if truthy (children nd) then negb (expanded nd)
                       else false in
              (update node (set_expanded e) st1, Continue)
          end
      | other => other
      end
  end.

(** Lines 196-199. *)
Definition key_s (visible : list (addr * nat)) (st : state)
  : state * outcome :=
  if truthy visible then
    match py_index visible (cursor st) with
    | None => (st, Raised Exception)
    | Some (node, _) =>
        match heap st !! node with
        | None => (st, Stuck)
        | Some nd => (st, Break (Some (id nd)))
        end
    end
  else (st, Continue).

(** The [if]/[elif] chain of lines 143-199. *)
Definition on_key (ch : Z) (visible : list (addr * nat)) (st : state)
  : state * outcome :=
  if (ch =? ord_q) || (ch =? 27) then (st, Break None)
  else if (ch =? KEY_UP) || (ch =? ord_k) then
    (with_cursor (Z.max 0 (cursor st - 1)) st, Continue)
  else if (ch =? KEY_DOWN) || (ch =? ord_j) then
    (with_cursor (if truthy visible
                  then Z.min (Z.of_nat (length visible) - 1) (cursor st + 1)
                  else 0) st, Continue)
  else if (ch =? KEY_RIGHT) || (ch =? ord_l) then key_right visible st
  else if (ch =? KEY_LEFT) || (ch =? ord_h) then key_left visible st
  else if (ch =? 10) || (ch =? 13) then key_enter visible st
  else if ch =? ord_space then key_space visible st
  else if ch =? ord_s then key_s visible st
  else (st, Continue).

(** Lines 133-137: the footer reads the current row. *)
Definition footer (visible : list (addr * nat)) (st : state) : outcome :=
  if truthy visible then
    match py_index visible (cursor st) with
    | None => Raised Exception
    | Some (cur, _) =>
        match heap st !! cur with
        | None => Stuck
        | Some _ => Continue
        end
    end
  else Continue.

(** One pass of [while True] (lines 108-199): rebuild the visible list, clamp
    the cursor, draw, wait for input, dispatch.  A RecursionError from line
    110 is not among the outcomes here; [iteration_within] below has it. *)
Definition iteration (inp : input) (st : state) : state * outcome :=
  match visible_of st with
  | None => (st, Stuck)
  | Some visible =>
      let st1 := with_cursor (clamp (cursor st) visible) st in
      match footer visible st1 with
      | Continue =>
          match inp with
          | Interrupt => (st1, Raised KeyboardInterrupt)
          | Key ch => on_key ch visible st1
          end
      | other => (st1, other)
      end
  end.

(** The loop on a finite supply of input; [Continue] at the end of the supply
    means the program is waiting in [getch]. *)
Fixpoint loop (keys : list input) (st : state) : state * outcome :=
  match keys with
  | [] => (st, Continue)
  | k :: keys' =>
      match iteration k st with
      | (st1, Continue) => loop keys' st1
      | other => other
      end
  end.

Definition _enter_alt_screen (scr : list term_event) : list term_event :=
  scr ++ [EnterAlt].
Definition _exit_alt_screen (scr : list term_event) : list term_event :=
  scr ++ [ExitAlt].

(** Lines 97-104: the root object, loaded eagerly; [except Exception] lets a
    KeyboardInterrupt through. *)
Definition build_root (root_id : TreeNode) (s0 : DS)
    (scr : list term_event) : state * outcome :=
  let '(h0, root) := alloc [] (new_Node root_id None) in
  let '(r, s1) := get_children root_id s0 in
  let st0 := {| heap := h0; root := root; cursor := 0; ds := s1;
                fetched := [root]; screen := scr |} in
  match r with
  | Raise KeyboardInterrupt => (st0, Raised KeyboardInterrupt)
  | _ =>
      let kids := match r with Ok kids => kids | Raise _ => [] end in
      let '(h1, cs) := alloc_children h0 root kids in
      (update root (set_expanded true)
         (update root (set_loaded true)
            (update root (set_children cs) (with_heap h1 st0))), Continue)
  end.

(** [_ui], lines 89-201. *)
Definition _ui (keys : list input) (root_id : TreeNode) (s0 : DS)
    (scr : list term_event) : state * outcome :=
  match build_root root_id s0 (_enter_alt_screen scr) with
  | (st, Continue) => loop keys st
  | other => other
  end.

(** What the caller of [tree_select] gets. *)
Inductive call_result :=
  | Returned (v : option TreeNode)
  | Propagated (e : exn)
  | Waiting                 (* input used up, still browsing *)
  | Undefined.              (* [Stuck] *)

(** [tree_select], lines 41-208: line 202 comes first, then
    [curses.wrapper(_ui)] under [except KeyboardInterrupt].  The [screen]
    field records the program's own two screen calls only; what the curses
    library sends around them, and on which terminal which branch of the two
    calls is taken, is in [tree_select_out] below. *)
Definition tree_select (keys : list input) (root_id : TreeNode) (s0 : DS)
  : state * call_result :=
  let scr := _exit_alt_screen [] in
  match _ui keys root_id s0 scr with
  | (st, Break selected_path) => (st, Returned selected_path)
  | (st, Raised KeyboardInterrupt) => (st, Returned None)
  | (st, Raised Exception) => (st, Propagated Exception)
  | (st, Continue) => (st, Waiting)
  | (st, Stuck) => (st, Undefined)
  end.

End Model.

Arguments _Node : clear implicits.
Arguments state : clear implicits.
Arguments outcome : clear implicits.
Arguments call_result : clear implicits.

(** ** The interpreter's recursion limit

    [walk] (lines 31-35) calls itself once for every expanded level, and
    CPython allows only a bounded number of nested calls: past it the call
    raises RecursionError, a subclass of Exception that nothing in [_ui]
    catches.  Below, [frames] is the number of nested calls of [walk] the
    interpreter still allows when [_build_visible] is entered, which is
    [sys.getrecursionlimit()] (1000 unless the caller changed it) less the
    calls already on the stack.  The definitions are those of the session
    above with this budget at the two places that call [_build_visible]
    (lines 110 and 169); there [None] is the RecursionError. *)
Definition recursion_limit : nat := 1000.

Section Bounded.
Context {TreeNode DS : Type} `{!DataSource TreeNode DS}.
Variable frames : nat.
Implicit Types st : state TreeNode DS.

(** [_build_visible(root)] under the budget. *)
Definition build_visible_within st : result (list (addr * nat)) :=
  match _build_visible frames (heap st) (root st) with
  | Some visible => Ok visible
  | None => Raise Exception
  end.

(** Lines 160-173, with the rebuild of line 169 under the budget. *)
Definition key_left_within (visible : list (addr * nat)) st
  : state TreeNode DS * outcome TreeNode :=
  if negb (truthy visible) then (st, Continue)
  else match py_index visible (cursor st) with
  | None => (st, Raised Exception)
  | Some (node, _) =>
      match heap st !! node with
      | None => (st, Stuck)
      | Some nd =>
          if expanded nd then (update node (set_expanded false) st, Continue)
          else match parent nd with
          | None => (st, Continue)
          | Some p =>
              match build_visible_within st with
              | Raise e => (st, Raised e)
              | Ok pv =>
                  match index_of p pv with
                  | Some idx => (with_cursor (Z.of_nat idx) st, Continue)
                  | None => (st, Continue)
                  end
              end
          end
      end
  end.

(** The [if]/[elif] chain of lines 143-199. *)
Definition on_key_within (ch : Z) (visible : list (addr * nat)) st
  : state TreeNode DS * outcome TreeNode :=
  if (ch =? ord_q) || (ch =? 27) then (st, Break None)
  else if (ch =? KEY_UP) || (ch =? ord_k) then
    (with_cursor (Z.max 0 (cursor st - 1)) st, Continue)
  else if (ch =? KEY_DOWN) || (ch =? ord_j) then
    (with_cursor (if truthy visible
                  then Z.min (Z.of_nat (length visible) - 1) (cursor st + 1)
                  else 0) st, Continue)
  else if (ch =? KEY_RIGHT) || (ch =? ord_l) then key_right visible st
  else if (ch =? KEY_LEFT) || (ch =? ord_h) then key_left_within visible st
  else if (ch =? 10) || (ch =? 13) then key_enter visible st
  else if ch =? ord_space then key_space visible st
  else if ch =? ord_s then key_s visible st
  else (st, Continue).

(** One pass of [while True] (lines 108-199); a RecursionError at line 110
    leaves the loop before anything is drawn or read. *)
Definition iteration_within (inp : input) st
  : state TreeNode DS * outcome TreeNode :=
  match build_visible_within st with
  | Raise e => (st, Raised e)
  | Ok visible =>
      let st1 := with_cursor (clamp (cursor st) visible) st in
      match footer visible st1 with
      | Continue =>
          match inp with
          | Interrupt => (st1, Raised KeyboardInterrupt)
          | Key ch => on_key_within ch visible st1
          end
      | other => (st1, other)
      end
  end.

Fixpoint loop_within (keys : list input) st
  : state TreeNode DS * outcome TreeNode :=
  match keys with
  | [] => (st, Continue)
  | k :: keys' =>
      match iteration_within k st with
      | (st1, Continue) => loop_within keys' st1
      | other => other
      end
  end.

(** [_ui], lines 89-201. *)
Definition _ui_within (keys : list input) (root_id : TreeNode) (s0 : DS)
    (scr : list term_event) : state TreeNode DS * outcome TreeNode :=
  match build_root root_id s0 (_enter_alt_screen scr) with
  | (st, Continue) => loop_within keys st
  | other => other
  end.

(** [tree_select], lines 41-208. *)
Definition tree_select_within (keys : list input) (root_id : TreeNode)
    (s0 : DS) : state TreeNode DS * call_result TreeNode :=
  let scr := _exit_alt_screen [] in
  match _ui_within keys root_id s0 scr with
  | (st, Break selected_path) => (st, Returned selected_path)
  | (st, Raised KeyboardInterrupt) => (st, Returned None)
  | (st, Raised Exception) => (st, Propagated Exception)
  | (st, Continue) => (st, Waiting)
  | (st, Stuck) => (st, Undefined)
  end.

End Bounded.

(** ** The terminal and the curses library

    What reaches the terminal during a call of [tree_select], and what the
    terminal makes of it.  A terminal is described by its terminfo entry,
    which may or may not hold the strings [smcup] and [rmcup], and by whether
    it honours the raw sequences ESC[?1049h and ESC[?1049l of lines 59-60.

    The curses library is not part of the program; it is modelled as it is
    documented.  [curses.tigetstr] raises [curses.error] as long as no
    terminal has been set up, which [curses.wrapper] does in [initscr]; it
    returns [None] for a capability the entry lacks.  [curses.wrapper] calls
    [initscr], runs [_ui] and calls [endwin] in a [finally] block, on every
    way out of [_ui]; starting up, the library sends [smcup] if the entry
    has it, and [endwin] sends [rmcup] if the entry has it. *)
Record terminal := mk_terminal {
  has_smcup : bool;   (* terminfo holds a non-empty [smcup] *)
  has_rmcup : bool;   (* terminfo holds a non-empty [rmcup] *)
  dec1049 : bool;     (* the terminal honours ESC[?1049h and ESC[?1049l *)
}.

Inductive tty_out :=
  | PutSmcup          (* the [smcup] string of the entry *)
  | PutRmcup          (* the [rmcup] string of the entry *)
  | WriteAltEnter     (* [ALT_ENTER], line 59 *)
  | WriteAltExit.     (* [ALT_EXIT], line 60 *)

(** [bool(curses.tigetstr(cap))]; [setup] tells whether a terminal has been
    set up. *)
Definition tigetstr (setup : bool) (cap : bool) : result bool :=
  if setup then Ok cap else Raise Exception.

(** [_enter_alt_screen], lines 62-75, and [_exit_alt_screen], lines 77-87:
    the capability if [tigetstr] gives one, the raw sequence if it gives
    none or raises. *)
Definition enter_alt_screen_out (setup : bool) (t : terminal) : list tty_out :=
  match tigetstr setup (has_smcup t) with
  | Ok true => [PutSmcup]
  | _ => [WriteAltEnter]
  end.
Definition exit_alt_screen_out (setup : bool) (t : terminal) : list tty_out :=
  match tigetstr setup (has_rmcup t) with
  | Ok true => [PutRmcup]
  | _ => [WriteAltExit]
  end.

(** The two ends of [curses.wrapper]. *)
Definition initscr_out (t : terminal) : list tty_out :=
  if has_smcup t then [PutSmcup] else [].
Definition endwin_out (t : terminal) : list tty_out :=
  if has_rmcup t then [PutRmcup] else [].

(** What the terminal does with one string: whether the alternate screen is
    active afterwards. *)
Definition receive (t : terminal) (active : bool) (o : tty_out) : bool :=
  match o with
  | PutSmcup => true
  | PutRmcup => false
  | WriteAltEnter => if dec1049 t then true else active
  | WriteAltExit => if dec1049 t then false else active
  end.
Definition alt_screen_active (t : terminal) (outs : list tty_out) : bool :=
  foldl (receive t) false outs.

(** Lines 202-206 as the terminal sees them: [_exit_alt_screen()] first, with
    [setup] telling whether the caller has set up a terminal before, then
    [curses.wrapper(_ui)], in which [_enter_alt_screen()] is the first thing
    [_ui] does; [endwin] once [_ui] has returned or raised. *)
Definition tree_select_out {TreeNode DS : Type} `{!DataSource TreeNode DS}
    (frames : nat) (t : terminal) (setup : bool) (keys : list input)
    (root_id : TreeNode) (s0 : DS) : list tty_out :=
  exit_alt_screen_out setup t
  ++ initscr_out t
  ++ enter_alt_screen_out true t
  ++ match (tree_select_within frames keys root_id s0).2 with
     | Waiting | Undefined => []
     | Returned _ | Propagated _ => endwin_out t
     end.

(** A terminal whose terminfo entry has neither capability but which honours
    the raw sequences, such as a current emulator run with TERM=vt100. *)
Definition plain_terminal : terminal :=
  {| has_smcup := false; has_rmcup := false; dec1049 := true |}.



(** ** A small data source for the examples

    Node 0 has members 1 and 2 and one child 3; node 2 has a member 4 and a
    child 5; reading the members of node 1 fails; everything else is a
    leaf. *)
Definition demo_members (n : nat) : result (list nat) :=
  match n with
  | 0%nat => Ok [1%nat; 2%nat]
  | 1%nat => Raise Exception
  | 2%nat => Ok [4%nat]
  | _ => Ok []
  end.
Definition demo_children (n : nat) : result (list nat) :=
  match n with
  | 0%nat => Ok [3%nat]
  | 2%nat => Ok [5%nat]
  | _ => Ok []
  end.

#[export] Instance demo : DataSource nat unit := {|
  name := λ n, String (Ascii.ascii_of_nat (65 + n)) EmptyString;
  getMembers := λ n s, (demo_members n, s);
  getChildren := λ n s, (demo_children n, s);
|}.

(** A session on the example source: down, down, expand. *)
Definition demo_keys : list input :=
  [Key KEY_DOWN; Key KEY_DOWN; Key KEY_RIGHT].
Definition demo_state : state nat unit := (_ui demo_keys 0%nat tt []).1.
(** The same session before the expand, and one row further down. *)
Definition demo_before : state nat unit :=
  (_ui [Key KEY_DOWN; Key KEY_DOWN] 0%nat tt []).1.
Definition demo_below : state nat unit :=
  (_ui (demo_keys ++ [Key KEY_DOWN]) 0%nat tt []).1.

(** The prefix of a row list up to and including the first row of node [n]
    (the whole list if there is none). *)
Fixpoint upto (n : addr) (l : list (addr * nat)) : list (addr * nat) :=
  match l with
  | [] => []
  | (x, d) :: l' => if decide (x = n) then [(x, d)] else (x, d) :: upto n l'
  end.

(** ** Invariants of the object store *)

Section Shape.
Context {TreeNode DS : Type}.
Implicit Types (h : list (_Node TreeNode)) (st : state TreeNode DS).

(** The objects form a tree laid out in allocation order: a child is younger
    than its parent and points back to it, and no node lists a child
    twice. *)
Record tree_shape h : Prop := {
  shape_children : ∀ a nd c,
    h !! a = Some nd → c ∈ children nd →
    (a < c)%nat ∧ ∃ cn, h !! c = Some cn ∧ parent cn = Some a;
  shape_nodup : ∀ a nd, h !! a = Some nd → NoDup (children nd);
  shape_parent : ∀ a nd p,
    h !! a = Some nd → parent nd = Some p → (p < a)%nat;
}.

(** [desc h a x]: following parent references from [x] leads to [a]. *)
Inductive desc h (a : addr) : addr → Prop :=
  | desc_refl : desc h a a
  | desc_step x nd p :
      h !! x = Some nd → parent nd = Some p → desc h a p → desc h a x.

(** The two invariants of the Node data model. *)
Definition flags_ok (nd : _Node TreeNode) : Prop :=
  (expanded nd = true → loaded nd = true) ∧
  (loaded nd = false → children nd = []).

(** The cursor is a row of the visible list of the current tree. *)
Definition cursor_ok st : Prop :=
  ∃ vis, visible_of st = Some vis ∧ 0 ≤ cursor st < Z.of_nat (length vis).

(** What holds of every state the session goes through. *)
Record inv st : Prop := {
  inv_root : root st = 0%nat;
  inv_root_node : ∃ nd, heap st !! 0%nat = Some nd ∧ parent nd = None;
  inv_shape : tree_shape (heap st);
  inv_flags : Forall flags_ok (heap st);
  inv_fetched : NoDup (fetched st);
  inv_loaded : ∀ a nd,
    heap st !! a = Some nd → loaded nd = true → a ∈ fetched st;
  inv_cursor : cursor_ok st;
}.

(** The cursor is on the row of node [n], drawn at depth [d]. *)
Definition focused st (n : addr) (d : nat) : Prop :=
  ∃ vis, visible_of st = Some vis ∧ 0 ≤ cursor st ∧
         vis !! Z.to_nat (cursor st) = Some (n, d).

(** While browsing, a fetch has been made only for nodes marked loaded. *)
Definition fetched_loaded st : Prop :=
  ∀ a, a ∈ fetched st → ∃ nd, heap st !! a = Some nd ∧ loaded nd = true.

(** From [st] to [st'] the root variable and the terminal are left alone and
    the fetch log only grows. *)
Definition extends st st' : Prop :=
  root st' = root st ∧ screen st' = screen st ∧
  fetched st `prefix_of` fetched st'.

(** What a piece of the loop body owes: it does not get stuck, it leaves a
    state satisfying [inv], and if the loop goes on, [fetched_loaded] too. *)
Definition post (r : state TreeNode DS * outcome TreeNode) : Prop :=
  r.2 ≠ Stuck ∧ inv r.1 ∧ (r.2 = Continue → fetched_loaded r.1).

(** [h'] holds the objects of [h], unchanged except for the one at [n], and
    possibly more. *)
Definition agree_except (n : addr) h h' : Prop :=
  (length h ≤ length h')%nat ∧
  ∀ a nd, a ≠ n → h !! a = Some nd → h' !! a = Some nd.

End Shape.

(** ** What the caller sees, and what the controller may do to the store *)

Section Steps_of_the_controller.
Context {TreeNode DS : Type} `{!DataSource TreeNode DS}.
Implicit Types (st : state TreeNode DS).

(** The [match] at the end of [tree_select], on its own. *)
Definition answer (o : outcome TreeNode) : call_result TreeNode :=
  match o with
  | Break selected_path => Returned selected_path
  | Raised KeyboardInterrupt => Returned None
  | Raised Exception => Propagated Exception
  | Continue => Waiting
  | Stuck => Undefined
  end.

(** The four ways in which the loop body changes the state: the cursor is
    assigned, an [expanded] flag is assigned, the data source is called, and
    the objects made from the answer are attached to a node that was not
    loaded. *)
Inductive prim : state TreeNode DS → state TreeNode DS → Prop :=
  | prim_cursor c st : prim st (with_cursor c st)
  | prim_expanded n b st : prim st (update n (set_expanded b) st)
  | prim_fetch n s st : prim st (with_fetch n s st)
  | prim_attach n kids st nd :
      heap st !! n = Some nd → loaded nd = false →
      prim st
        (update n (set_loaded true)
           (update n (set_children (seq (length (heap st)) (length kids)))
              (with_heap
                 (heap st ++ ((λ cid, new_Node cid (Some n)) <$> kids))
                 st))).

(** Every object of [st] is still an object of [st'], with the same
    identifier, label and parent; once loaded it stays loaded and keeps its
    children. *)
Definition persists st st' : Prop :=
  ∀ a nd, heap st !! a = Some nd →
    ∃ nd', heap st' !! a = Some nd'
      ∧ id nd' = id nd ∧ label nd' = label nd ∧ parent nd' = parent nd
      ∧ (loaded nd = true → loaded nd' = true ∧ children nd' = children nd).

End Steps_of_the_controller.

(** ** Drawing the rows *)

(** The two counters of an [MDSplus.TreeNode] read by the row loop. *)
Class LeafCounts (TreeNode : Type) := {
  number_of_children : TreeNode → Z;
  number_of_members : TreeNode → Z;
}.

Inductive attr := A_NORMAL | A_REVERSE.

(** One call [stdscr.addnstr(y, x, str, n, attr)]. *)
Inductive draw := Addnstr (y x : Z) (str : string) (n : Z) (a : attr).

Definition draw_row (c : draw) : Z := let 'Addnstr y _ _ _ _ := c in y.
Definition draw_attr (c : draw) : attr := let 'Addnstr _ _ _ _ a := c in a.
Definition draw_text (c : draw) : string := let 'Addnstr _ _ s _ _ := c in s.

(** [s * k] on strings. *)
Fixpoint str_times (s : string) (k : nat) : string :=
  match k with
  | O => EmptyString
  | S k' => String.append s (str_times s k')
  end.

Section Drawing.
Context {TreeNode : Type} `{!LeafCounts TreeNode}.

(** The body of the row loop, lines 125-128. *)
Definition row_line (nd : _Node TreeNode) (depth : nat) : string :=
  let is_leaf :=
    number_of_children (id nd) + number_of_members (id nd) =? 0 in
  let marker :=
    if is_leaf then " " else if negb (expanded nd) then "▸" else "▾" in
  String.append (str_times "  " depth)
    (String.append marker (String.append " " (label nd))).

(** Lines 119-129: the calls made by the row loop, for rows [i], [i+1], ...
    of the visible list; [None] if a row names an address not in the
    store. *)
Fixpoint draw_rows (max_y max_x : Z) (h : list (_Node TreeNode)) (cursor : Z)
    (i : nat) (visible : list (addr * nat)) : option (list draw) :=
  match visible with
  | [] => Some []
  | (node, depth) :: rest =>
      let row := 2 + Z.of_nat i in
      if row >=? max_y - 2 then Some []
      else
        nd ← h !! node;
        let a := if Z.of_nat i =? cursor then A_REVERSE else A_NORMAL in
        calls ← draw_rows max_y max_x h cursor (S i) rest;
        Some (Addnstr row 0 (row_line nd depth) (max_x - 1) a :: calls)
  end.

End Drawing.

(** A source on which reading the members of node 1 is interrupted; node 0
    has the one member 1. *)
Definition demo_interrupting : DataSource nat unit := {|
  name := λ n, String (Ascii.ascii_of_nat (65 + n)) EmptyString;
  getMembers := λ n s,
    (match n with
     | 0%nat => Ok [1%nat]
     | _ => Raise KeyboardInterrupt
     end, s);
  getChildren := λ n s, (Ok [], s);
|}.

(** The example session as the caller of [tree_select] sees it: before and
    after the expand of node 2. *)
Definition demo_waiting : state nat unit :=
  (tree_select [Key KEY_DOWN; Key KEY_DOWN] 0%nat tt).1.
Definition demo_expanded : state nat unit :=
  (tree_select demo_keys 0%nat tt).1.

(** The counters on the example source. *)
#[export] Instance demo_counts : LeafCounts nat := {|
  number_of_children := λ n,
    match demo_children n with Ok l => Z.of_nat (length l) | Raise _ => 0 end;
  number_of_members := λ n,
    match demo_members n with Ok l => Z.of_nat (length l) | Raise _ => 0 end;
|}.

(** The rows drawn for the example session on a screen of seven lines. *)
Definition demo_calls : list draw :=
  default []
    (draw_rows 7 80 (heap demo_expanded) 2 0
       [(0, 0); (1, 1); (2, 1); (4, 2); (5, 2); (3, 1)]%nat).

(** * Properties *)

Section Traversal.
Context {TreeNode DS : Type} `{!DataSource TreeNode DS}.
Implicit Types (h : list (_Node TreeNode)) (n a c : addr) (d depth : nat).
Implicit Types (vis out : list (addr * nat)).

(** ** [walk] against [preorder] *)

Lemma walk_children_None fuel h d cs :
  foldl (λ acc c, out' ← acc; walk fuel h c d out') None cs = None.
Proof. induction cs as [|c cs IH]; simpl; auto. Qed.

Lemma walk_children fuel h d cs :
  (∀ c out, walk fuel h c d out = (out ++.) <$> preorder fuel h c d) →
  ∀ out,
    foldl (λ acc c, out' ← acc; walk fuel h c d out') (Some out) cs
    = (λ rows, out ++ concat rows) <$> mapM (λ c, preorder fuel h c d) cs.
Proof.
  intros Hw. induction cs as [|c cs IH]; intros out; simpl.
  - by rewrite app_nil_r.
  - rewrite Hw. destruct (preorder fuel h c d) as [r|]; simpl.
    + rewrite IH. destruct (mapM _ cs) as [rows|]; simpl; [|done].
      by rewrite app_assoc.
    + apply walk_children_None.
Qed.

Lemma walk_preorder fuel h n d out :
  walk fuel h n d out = (out ++.) <$> preorder fuel h n d.
Proof.
  revert n d out. induction fuel as [|fuel IH]; intros n d out; simpl; [done|].
  destruct (h !! n) as [nd|]; simpl; [|done].
  destruct (expanded nd); simpl; [|done].
  rewrite walk_children by (intros; apply IH).
  destruct (mapM _ (children nd)) as [rows|]; simpl; [|done].
  by rewrite <- app_assoc.
Qed.

Lemma build_visible_preorder fuel h r :
  _build_visible fuel h r = preorder fuel h r 0.
Proof.
  unfold _build_visible. rewrite walk_preorder.
  by destruct (preorder fuel h r 0).
Qed.

(** ** An induction principle along the traversal *)

Lemma preorder_inv fuel h a d vis :
  preorder fuel h a d = Some vis →
  ∃ f nd, fuel = S f ∧ h !! a = Some nd ∧
    if expanded nd
    then ∃ rows,
      Forall2 (λ c r, preorder f h c (S d) = Some r) (children nd) rows ∧
      vis = (a, d) :: concat rows
    else vis = [(a, d)].
Proof.
  destruct fuel as [|f]; simpl; [done|]. intros Hp.
  destruct (h !! a) as [nd|] eqn:Ha; simpl in Hp; [|done].
  exists f, nd. split_and!; [done..|].
  destruct (expanded nd); [|by simplify_eq].
  destruct (mapM _ (children nd)) as [rows|] eqn:Hm; simpl in Hp; [|done].
  exists rows. apply mapM_Some in Hm. by simplify_eq.
Qed.

Lemma preorder_rows_ind h (P : addr → nat → list (addr * nat) → Prop) :
  (∀ a d nd, h !! a = Some nd → expanded nd = false → P a d [(a, d)]) →
  (∀ f a d nd rows, h !! a = Some nd → expanded nd = true →
     Forall2 (λ c r, preorder f h c (S d) = Some r ∧ P c (S d) r)
       (children nd) rows →
     P a d ((a, d) :: concat rows)) →
  ∀ fuel a d vis, preorder fuel h a d = Some vis → P a d vis.
Proof.
  intros Hleaf Hnode. induction fuel as [|f IH]; intros a d vis Hp; [done|].
  apply preorder_inv in Hp as (f' & nd & [= <-] & Ha & Hp).
  destruct (expanded nd) eqn:He.
  - destruct Hp as (rows & Hrows & ->). eapply (Hnode f); [done..|].
    eapply Forall2_impl; [exact Hrows|]. intros c r Hc. split; [done|].
    by apply IH.
  - subst vis. by eapply Hleaf.
Qed.

Lemma preorder_head fuel h a d vis :
  preorder fuel h a d = Some vis → ∃ rest, vis = (a, d) :: rest.
Proof.
  intros Hp. apply preorder_inv in Hp as (f & nd & _ & _ & Hp).
  destruct (expanded nd); [destruct Hp as (rows & _ & ->)|]; eauto.
Qed.

(** ** Fuel: enough of it always gives a result, and more changes nothing *)

Lemma preorder_total h :
  tree_shape h →
  ∀ fuel a d, (a < length h)%nat → (length h - a ≤ fuel)%nat →
    is_Some (preorder fuel h a d).
Proof.
  intros Hs. induction fuel as [|f IH]; intros a d Ha Hf; [lia|]. simpl.
  destruct (lookup_lt_is_Some_2 h a Ha) as [nd Hnd]. rewrite Hnd. simpl.
  destruct (expanded nd); [|eauto].
  assert (is_Some (mapM (λ c, preorder f h c (S d)) (children nd))) as [rows ->].
  { apply mapM_is_Some, Forall_forall. intros c Hc. simpl.
    destruct (shape_children h Hs a nd c Hnd Hc) as (Hlt & cn & Hcn & _).
    apply lookup_lt_Some in Hcn. apply IH; lia. }
  simpl. eauto.
Qed.

Lemma preorder_mono h fuel fuel' a d vis :
  preorder fuel h a d = Some vis → (fuel ≤ fuel')%nat →
  preorder fuel' h a d = Some vis.
Proof.
  revert fuel' a d vis. induction fuel as [|f IH]; intros f' a d vis Hp Hle;
    [done|].
  destruct f' as [|f']; [lia|].
  apply preorder_inv in Hp as (f0 & nd & [= <-] & Ha & Hp). simpl.
  rewrite Ha. simpl. destruct (expanded nd); [|by subst].
  destruct Hp as (rows & Hrows & ->).
  assert (mapM (λ c, preorder f' h c (S d)) (children nd) = Some rows) as ->.
  { apply mapM_Some. eapply Forall2_impl; [exact Hrows|].
    intros c r Hc. apply IH; [done|lia]. }
  done.
Qed.

Lemma preorder_fuel_irrelevant h fuel fuel' a d vis vis' :
  preorder fuel h a d = Some vis → preorder fuel' h a d = Some vis' →
  vis = vis'.
Proof.
  intros H1 H2. destruct (Nat.le_ge_cases fuel fuel') as [Hle|Hle].
  - eapply preorder_mono in H1; [|exact Hle]. congruence.
  - eapply preorder_mono in H2; [|exact Hle]. congruence.
Qed.

(** ** Rows and the parent references *)


Lemma Forall2_concat_elem {A B C} (R : A → list B → Prop) (g : B → C)
    (us : list A) (rows : list (list B)) (y : C) :
  Forall2 R us rows → y ∈ g <$> concat rows →
  ∃ u r, u ∈ us ∧ r ∈ rows ∧ R u r ∧ y ∈ g <$> r.
Proof.
  induction 1 as [|u r us rows Hur _ IH]; simpl.
  - intros Hy. by apply elem_of_nil in Hy.
  - rewrite fmap_app, elem_of_app. intros [Hy|Hy].
    + exists u, r. split_and!; [left|left|done..].
    + destruct (IH Hy) as (u' & r' & ? & ? & ? & ?).
      exists u', r'. split_and!; [by right|by right|done..].
Qed.

Lemma elem_of_concat_fmap {B C} (g : B → C) (rows : list (list B)) r (y : C) :
  r ∈ rows → y ∈ g <$> r → y ∈ g <$> concat rows.
Proof.
  induction 1 as [r rows|r r' rows _ IH]; simpl; intros Hy;
    rewrite fmap_app, elem_of_app; auto.
Qed.

Lemma desc_le h a x : tree_shape h → desc h a x → (a ≤ x)%nat.
Proof.
  intros Hs. induction 1 as [|x nd p Hx Hp _ IH]; [done|].
  pose proof (shape_parent h Hs x nd p Hx Hp). lia.
Qed.

Lemma desc_child h a c cn x :
  h !! c = Some cn → parent cn = Some a → desc h c x → desc h a x.
Proof.
  intros Hc Hp. induction 1 as [|x nd p Hx Hpx _ IH].
  - eapply desc_step; [done..|constructor].
  - eapply desc_step; done.
Qed.

Lemma desc_siblings h a c1 c2 cn1 cn2 x :
  tree_shape h → c1 ≠ c2 →
  h !! c1 = Some cn1 → parent cn1 = Some a →
  h !! c2 = Some cn2 → parent cn2 = Some a →
  desc h c1 x → desc h c2 x → False.
Proof.
  intros Hs Hne H1 Hp1 H2 Hp2 Hd1.
  pose proof (shape_parent h Hs _ _ _ H1 Hp1) as Hlt1.
  pose proof (shape_parent h Hs _ _ _ H2 Hp2) as Hlt2.
  induction Hd1 as [|x nd p Hx Hpx Hd1 IH]; intros Hd2.
  - inversion Hd2 as [|? nd p Hx Hpx Hd]; subst; [done|].
    simplify_eq. apply desc_le in Hd; [lia|done].
  - inversion Hd2 as [|? nd' p' Hx' Hpx' Hd]; subst.
    + simplify_eq. apply desc_le in Hd1; [lia|done].
    + simplify_eq; by apply IH.
Qed.

Lemma preorder_lookup fuel h a d vis :
  preorder fuel h a d = Some vis → ∀ x, x ∈ vis.*1 → is_Some (h !! x).
Proof.
  revert fuel a d vis.
  apply (preorder_rows_ind h (λ _ _ vis, ∀ x, x ∈ vis.*1 → is_Some (h !! x))).
  - intros a d nd Ha _ x Hx. apply list_elem_of_singleton in Hx as ->. eauto.
  - intros f a d nd rows Ha _ Hrows x Hx. rewrite fmap_cons in Hx.
    apply elem_of_cons in Hx as [->|Hx]; [eauto|].
    destruct (Forall2_concat_elem _ _ _ _ _ Hrows Hx)
      as (c & r & _ & _ & [_ Hr] & ?).
    by apply Hr.
Qed.

Lemma preorder_desc fuel h a d vis :
  tree_shape h → preorder fuel h a d = Some vis →
  ∀ x, x ∈ vis.*1 → desc h a x.
Proof.
  intros Hs. revert fuel a d vis.
  apply (preorder_rows_ind h (λ a _ vis, ∀ x, x ∈ vis.*1 → desc h a x)).
  - intros a d nd Ha _ x Hx. apply list_elem_of_singleton in Hx as ->.
    constructor.
  - intros f a d nd rows Ha _ Hrows x Hx. rewrite fmap_cons in Hx.
    apply elem_of_cons in Hx as [->|Hx]; [constructor|].
    destruct (Forall2_concat_elem _ _ _ _ _ Hrows Hx)
      as (c & r & Hc & _ & [_ Hr] & ?).
    destruct (shape_children h Hs a nd c Ha Hc) as (_ & cn & Hcn & Hp).
    eapply desc_child; eauto.
Qed.

Lemma preorder_parent_in fuel h a d vis :
  tree_shape h → preorder fuel h a d = Some vis →
  ∀ x, x ∈ vis.*1 →
    x = a ∨ ∃ nd p, h !! x = Some nd ∧ parent nd = Some p ∧ p ∈ vis.*1.
Proof.
  intros Hs. revert fuel a d vis.
  apply (preorder_rows_ind h (λ a _ vis, ∀ x, x ∈ vis.*1 →
    x = a ∨ ∃ nd p, h !! x = Some nd ∧ parent nd = Some p ∧ p ∈ vis.*1)).
  - intros a d nd Ha _ x Hx. apply list_elem_of_singleton in Hx as ->.
    by left.
  - intros f a d nd rows Ha _ Hrows x Hx. rewrite fmap_cons in Hx.
    apply elem_of_cons in Hx as [->|Hx]; [by left|]. right.
    destruct (Forall2_concat_elem _ _ _ _ _ Hrows Hx)
      as (c & r & Hc & Hin & [_ Hr] & Hxr).
    destruct (Hr x Hxr) as [->|(ndx & p & ? & ? & ?)].
    + destruct (shape_children h Hs a nd c Ha Hc) as (_ & cn & Hcn & Hp).
      exists cn, a. split_and!; [done..|]. rewrite fmap_cons. by left.
    + exists ndx, p. split_and!; [done..|]. rewrite fmap_cons. right.
      by eapply elem_of_concat_fmap.
Qed.

(** No node is drawn twice. *)
Lemma preorder_NoDup fuel h a d vis :
  tree_shape h → preorder fuel h a d = Some vis → NoDup vis.*1.
Proof.
  intros Hs. revert fuel a d vis.
  apply (preorder_rows_ind h (λ _ _ vis, NoDup vis.*1)).
  - intros a d nd _ _. apply NoDup_singleton.
  - intros f a d nd rows Ha _ Hrows. rewrite fmap_cons. apply NoDup_cons. split.
    + intros Hx.
      destruct (Forall2_concat_elem _ _ _ _ _ Hrows Hx)
        as (c & r & Hc & _ & [Hr _] & Hin).
      destruct (shape_children h Hs a nd c Ha Hc) as (Hlt & _).
      simpl in Hin. pose proof (preorder_desc _ _ _ _ _ Hs Hr _ Hin) as Hd.
      apply desc_le in Hd; [lia|done].
    + pose proof (shape_nodup h Hs a nd Ha) as Hnd.
      assert (children nd ⊆ children nd) as Hsub by done.
      revert Hsub Hnd Hrows. generalize (children nd) at 1 3 4. intros cs.
      intros Hsub Hnd Hrows. revert Hsub Hnd.
      induction Hrows as [|c r cs rows [Hc Hr] Hrest IH]; intros Hsub Hnd;
        simpl; [constructor|].
      apply NoDup_cons in Hnd as [Hnc Hnd].
      rewrite fmap_app. apply NoDup_app. split_and!; [done| |].
      * intros x Hx Hx'.
        destruct (Forall2_concat_elem _ _ _ _ _ Hrest Hx')
          as (c' & r' & Hc' & _ & [Hr' _] & Hin').
        destruct (shape_children h Hs a nd c Ha) as (_ & cn & Hcn & Hp);
          [apply Hsub; left|].
        destruct (shape_children h Hs a nd c' Ha) as (_ & cn' & Hcn' & Hp');
          [apply Hsub; by right|].
        eapply (desc_siblings h a c c' cn cn' x); eauto using preorder_desc.
        intros ->. done.
      * apply IH; [|done]. intros y Hy. apply Hsub. by right.
Qed.

(** ** The rows up to a node do not depend on that node's own state *)

Lemma upto_app n vis1 vis2 :
  upto n (vis1 ++ vis2)
  = if decide (n ∈ vis1.*1) then upto n vis1 else vis1 ++ upto n vis2.
Proof.
  induction vis1 as [|[x d] vis1 IH]; simpl.
  - done.
  - destruct (decide (x = n)) as [->|Hne].
    + rewrite decide_True by left. done.
    + rewrite IH. case_decide as Hin.
      * rewrite decide_True by (by right). done.
      * rewrite decide_False; [done|]. by intros [?|?]%elem_of_cons.
Qed.

Lemma upto_notin n vis : n ∉ vis.*1 → upto n vis = vis.
Proof.
  induction vis as [|[x d] vis IH]; simpl; [done|]. intros Hn.
  apply not_elem_of_cons in Hn as [Hne Hn].
  rewrite decide_False by done. by rewrite IH.
Qed.

Lemma upto_elem n vis : n ∈ (upto n vis).*1 ↔ n ∈ vis.*1.
Proof.
  induction vis as [|[x d] vis IH]; simpl; [done|].
  destruct (decide (x = n)) as [->|Hne]; simpl.
  - split; intros _; left.
  - rewrite !elem_of_cons, IH. done.
Qed.

Lemma upto_prefix n vis : ∃ k, vis = upto n vis ++ k.
Proof.
  induction vis as [|[x d] vis [k IH]]; simpl; [by exists []|].
  destruct (decide (x = n)); [by exists vis|]. exists k. simpl. by f_equal.
Qed.

Lemma upto_take n vis i d :
  NoDup vis.*1 → vis !! i = Some (n, d) → upto n vis = take (S i) vis.
Proof.
  revert i. induction vis as [|[x dx] vis IH]; intros i Hnd Hi; [done|].
  simpl in *. apply NoDup_cons in Hnd as [Hx Hnd]. destruct i as [|i]; simpl in *.
  - simplify_eq. rewrite decide_True by done. by rewrite take_0.
  - rewrite decide_False.
    + f_equal. by apply IH.
    + intros ->. apply Hx. apply list_elem_of_fmap. exists (n, d).
      split; [done|]. by eapply list_elem_of_lookup_2.
Qed.

Lemma upto_rows n (g : addr → option (list (addr * nat))) cs rows rows' :
  Forall2 (λ c r, ∀ r', g c = Some r' → upto n r' = upto n r) cs rows →
  Forall2 (λ c r', g c = Some r') cs rows' →
  upto n (concat rows') = upto n (concat rows).
Proof.
  intros H. revert rows'.
  induction H as [|c r cs rows Hr _ IH]; intros rows' H';
    inversion H' as [|? r' ? rows'' Hr' Hrest]; subst; simpl; [done|].
  rewrite !upto_app. specialize (Hr _ Hr').
  assert (n ∈ r'.*1 ↔ n ∈ r.*1) as Hiff.
  { by rewrite <- (upto_elem n r'), <- (upto_elem n r), Hr. }
  destruct (decide (n ∈ r'.*1)) as [Hin|Hin].
  - rewrite decide_True by (by apply Hiff). done.
  - rewrite decide_False by (by rewrite <- Hiff).
    rewrite <- (upto_notin n r') at 1 by done.
    rewrite Hr, upto_notin by (by rewrite <- Hiff). f_equal. by apply IH.
Qed.

Lemma preorder_upto n h h' :
  agree_except n h h' →
  ∀ fuel a d vis, preorder fuel h a d = Some vis →
  ∀ fuel' vis', preorder fuel' h' a d = Some vis' →
  upto n vis' = upto n vis.
Proof.
  intros [_ Hag].
  apply (preorder_rows_ind h (λ a d vis, ∀ fuel' vis',
    preorder fuel' h' a d = Some vis' → upto n vis' = upto n vis)).
  - intros a d nd Ha He fuel' vis' Hp'. destruct (decide (a = n)) as [->|Hne].
    + apply preorder_head in Hp' as [rest ->]. simpl.
      by destruct (decide (n = n)).
    + apply preorder_inv in Hp' as (f' & nd' & _ & Ha' & Hp').
      rewrite (Hag a nd Hne Ha) in Ha'. simplify_eq. rewrite He in Hp'.
      by subst.
  - intros f a d nd rows Ha He Hrows fuel' vis' Hp'.
    destruct (decide (a = n)) as [->|Hne].
    + apply preorder_head in Hp' as [rest ->]. simpl.
      by destruct (decide (n = n)).
    + apply preorder_inv in Hp' as (f' & nd' & _ & Ha' & Hp').
      rewrite (Hag a nd Hne Ha) in Ha'. simplify_eq. rewrite He in Hp'.
      destruct Hp' as (rows' & Hrows' & ->). simpl.
      rewrite !decide_False by done. f_equal.
      eapply (upto_rows n (λ c, preorder f' h' c (S d))); [|exact Hrows'].
      eapply Forall2_impl; [exact Hrows|]. intros c r [_ Hr] r'. apply Hr.
Qed.

(** Changing the node under the cursor keeps the row where it is. *)
Lemma preorder_row_stable n h h' fuel fuel' a d0 vis vis' i d :
  tree_shape h → agree_except n h h' →
  preorder fuel h a d0 = Some vis → preorder fuel' h' a d0 = Some vis' →
  vis !! i = Some (n, d) → vis' !! i = Some (n, d).
Proof.
  intros Hs Hag Hp Hp' Hi.
  pose proof (preorder_upto n h h' Hag _ _ _ _ Hp _ _ Hp') as Hu.
  rewrite (upto_take n vis i d) in Hu
    by eauto using preorder_NoDup.
  destruct (upto_prefix n vis') as [k Hk]. rewrite Hk, Hu.
  pose proof (lookup_lt_Some _ _ _ Hi).
  rewrite lookup_app_l by (rewrite length_take; lia).
  rewrite lookup_take_lt by lia. done.
Qed.

(** ** The rows of a subtree are a segment of the list *)

Lemma concat_lookup_segment {A} (R : addr → list A → Prop)
    (cs : list addr) (rows : list (list A)) (j : nat) (x : A) :
  Forall2 R cs rows → concat rows !! j = Some x →
  ∃ c r j' suf,
    R c r ∧ r !! j' = Some x ∧ drop j (concat rows) = drop j' r ++ suf.
Proof.
  intros H. revert j. induction H as [|c r cs rows Hcr _ IH]; intros j;
    simpl; [done|].
  intros Hj. destruct (decide (j < length r)%nat) as [Hlt|Hge].
  - rewrite lookup_app_l in Hj by done.
    exists c, r, j, (concat rows). split_and!; [done..|].
    rewrite drop_app_le by lia. done.
  - rewrite lookup_app_r in Hj by lia.
    destruct (IH _ Hj) as (c' & r' & j' & suf & ? & ? & Hd).
    exists c', r', j', suf. split_and!; [done..|].
    rewrite drop_app_ge by lia. done.
Qed.

Lemma preorder_segment fuel h a d0 vis :
  preorder fuel h a d0 = Some vis →
  ∀ i n d, vis !! i = Some (n, d) →
  ∃ fuel' sub suf, preorder fuel' h n d = Some sub ∧ drop i vis = sub ++ suf.
Proof.
  revert fuel a d0 vis.
  apply (preorder_rows_ind h (λ _ _ vis, ∀ i n d, vis !! i = Some (n, d) →
    ∃ fuel' sub suf,
      preorder fuel' h n d = Some sub ∧ drop i vis = sub ++ suf)).
  - intros a d0 nd Ha He [|i] n d Hi; simpl in Hi; [|done]. simplify_eq.
    exists 1%nat, [(n, d)], []. split; [|done]. simpl. rewrite Ha. simpl.
    by rewrite He.
  - intros f a d0 nd rows Ha He Hrows [|i] n d Hi; simpl in Hi.
    + simplify_eq. exists (S f), ((n, d) :: concat rows), [].
      split; [|by rewrite app_nil_r]. simpl. rewrite Ha. simpl. rewrite He.
      assert (mapM (λ c, preorder f h c (S d)) (children nd) = Some rows)
        as ->; [|done].
      apply mapM_Some. eapply Forall2_impl; [exact Hrows|]. by intros ?? [? _].
    + destruct (concat_lookup_segment _ _ _ _ _ Hrows Hi)
        as (c & r & j' & suf & [_ Hr] & Hj' & Hd).
      destruct (Hr _ _ _ Hj') as (fuel' & sub & suf' & Hsub & Hd').
      exists fuel', sub, (suf' ++ suf). split; [done|]. simpl.
      by rewrite Hd, Hd', app_assoc.
Qed.

(** An expanded node whose children are all collapsed shows exactly its
    children, in their order. *)
Lemma preorder_collapsed_children fuel h n d nd sub :
  h !! n = Some nd → expanded nd = true →
  Forall (λ c, ∃ cn, h !! c = Some cn ∧ expanded cn = false) (children nd) →
  preorder fuel h n d = Some sub →
  sub = (n, d) :: ((λ c, (c, S d)) <$> children nd).
Proof.
  intros Hn He Hcs Hp.
  apply preorder_inv in Hp as (f & nd' & _ & Hn' & Hp). simplify_eq.
  rewrite He in Hp. destruct Hp as (rows & Hrows & ->). f_equal.
  induction Hrows as [|c r cs rows Hc _ IH]; simpl; [done|].
  apply Forall_cons in Hcs as [(cn & Hcn & Hec) Hcs].
  apply preorder_inv in Hc as (f' & cn' & _ & Hcn' & Hc). simplify_eq.
  rewrite Hec in Hc. subst r. simpl. f_equal. by apply IH.
Qed.

End Traversal.

Section Store.
Context {TreeNode DS : Type} `{!DataSource TreeNode DS}.
Implicit Types (h : list (_Node TreeNode)) (n a c : addr) (d : nat).
Implicit Types (nd : _Node TreeNode) (st : state TreeNode DS).

(** ** Allocation and attribute updates *)

Lemma alloc_children_eq h n kids :
  alloc_children h n kids
  = (h ++ ((λ cid, new_Node cid (Some n)) <$> kids),
     seq (length h) (length kids)).
Proof.
  revert h. induction kids as [|cid kids IH]; intros h; simpl.
  - by rewrite app_nil_r.
  - unfold alloc. rewrite IH, length_app. simpl.
    rewrite <- app_assoc, Nat.add_1_r. done.
Qed.

Lemma agree_except_refl n h : agree_except n h h.
Proof. split; auto. Qed.

Lemma agree_except_trans n h1 h2 h3 :
  agree_except n h1 h2 → agree_except n h2 h3 → agree_except n h1 h3.
Proof. intros [? H12] [? H23]. split; [lia|]. eauto. Qed.

Lemma agree_except_alter n (f : _Node TreeNode → _Node TreeNode) h :
  agree_except n h (alter f n h).
Proof.
  split; [by rewrite length_alter|]. intros a nd Hne Ha.
  by rewrite list_lookup_alter_ne.
Qed.

Lemma agree_except_app n h k : agree_except n h (h ++ k).
Proof.
  split; [rewrite length_app; lia|]. intros a nd _ Ha.
  by apply lookup_app_l_Some.
Qed.

Lemma lookup_alter_inv (f : _Node TreeNode → _Node TreeNode) n h a nd :
  alter f n h !! a = Some nd →
  ∃ nd0, h !! a = Some nd0 ∧ (a = n ∧ nd = f nd0 ∨ a ≠ n ∧ nd = nd0).
Proof.
  rewrite list_lookup_alter. case_decide as Hd.
  - subst a. destruct (h !! n) as [nd0|]; simpl; [|done].
    intros [= <-]. eauto.
  - intros Ha. eauto.
Qed.

Lemma lookup_alter_keeps (f : _Node TreeNode → _Node TreeNode) n h a nd0 :
  h !! a = Some nd0 →
  ∃ nd, alter f n h !! a = Some nd ∧ (nd = f nd0 ∨ nd = nd0).
Proof.
  intros Ha. rewrite list_lookup_alter. case_decide as Hd.
  - subst a. rewrite Ha. simpl. eauto.
  - eauto.
Qed.

(** An update that leaves [parent] and [children] alone keeps the shape. *)
Lemma tree_shape_alter (f : _Node TreeNode → _Node TreeNode) n h :
  (∀ nd, parent (f nd) = parent nd) →
  (∀ nd, children (f nd) = children nd) →
  tree_shape h → tree_shape (alter f n h).
Proof.
  intros Hfp Hfc Hs. split.
  - intros a nd c Ha Hc.
    apply lookup_alter_inv in Ha as (nd0 & Ha & Hnd).
    assert (c ∈ children nd0) as Hc0.
    { destruct Hnd as [[_ ->]|[_ ->]]; [by rewrite Hfc in Hc|done]. }
    destruct (shape_children h Hs a nd0 c Ha Hc0) as (Hlt & cn & Hcn & Hp).
    split; [done|].
    destruct (lookup_alter_keeps f n h c cn Hcn) as (cn' & Hcn' & Heq).
    exists cn'. split; [done|]. destruct Heq as [->| ->]; [by rewrite Hfp|done].
  - intros a nd Ha. apply lookup_alter_inv in Ha as (nd0 & Ha & Hnd).
    pose proof (shape_nodup h Hs a nd0 Ha).
    destruct Hnd as [[_ ->]|[_ ->]]; [by rewrite Hfc|done].
  - intros a nd p Ha Hp. apply lookup_alter_inv in Ha as (nd0 & Ha & Hnd).
    apply (shape_parent h Hs a nd0 p Ha).
    destruct Hnd as [[_ ->]|[_ ->]]; [by rewrite Hfp in Hp|done].
Qed.

(** Giving node [n] a block of fresh objects as its children keeps the
    shape. *)
Lemma tree_shape_load h n kids :
  tree_shape h → (n < length h)%nat →
  tree_shape
    (alter (set_children (seq (length h) (length kids))) n
       (h ++ ((λ cid, new_Node cid (Some n)) <$> kids))).
Proof.
  intros Hs Hn.
  set (news := (λ cid, new_Node cid (Some n)) <$> kids).
  assert (∀ a nd, (h ++ news) !! a = Some nd →
            h !! a = Some nd ∨
            ((length h ≤ a)%nat ∧ parent nd = Some n ∧ children nd = []))
    as Hold.
  { intros a nd Ha. apply lookup_app_Some in Ha as [Ha|[Hle Ha]]; [by left|].
    right. split; [done|]. unfold news in Ha.
    apply list_lookup_fmap_Some in Ha as (cid & -> & _). done. }
  assert (∀ c, c ∈ seq (length h) (length kids) →
            ∃ cn, (h ++ news) !! c = Some cn ∧ parent cn = Some n ∧
                  (length h ≤ c)%nat) as Hnew.
  { intros c Hc. apply elem_of_seq in Hc as [Hge Hlt].
    destruct (lookup_lt_is_Some_2 (h ++ news) c) as [cn Hcn].
    { rewrite length_app. unfold news. rewrite length_fmap. lia. }
    exists cn. split; [done|]. destruct (Hold c cn Hcn) as [Hc|(_ & ? & _)].
    - apply lookup_lt_Some in Hc. lia.
    - done. }
  split.
  - intros a nd c Ha Hc.
    apply lookup_alter_inv in Ha as (nd0 & Ha & [[-> ->]|[Hne ->]]).
    + simpl in Hc. destruct (Hnew c Hc) as (cn & Hcn & Hp & Hge).
      split; [lia|]. exists cn. split; [|done].
      rewrite list_lookup_alter_ne by lia. done.
    + destruct (Hold a nd0 Ha) as [Ha0|(_ & _ & Hnil)].
      * destruct (shape_children h Hs a nd0 c Ha0 Hc)
          as (Hlt & cn & Hcn & Hp).
        split; [done|].
        destruct (lookup_alter_keeps
                    (set_children (seq (length h) (length kids))) n
                    (h ++ news) c cn) as (cn' & Hcn' & Heq).
        { by apply lookup_app_l_Some. }
        exists cn'. split; [done|]. by destruct Heq as [->| ->].
      * rewrite Hnil in Hc. by apply elem_of_nil in Hc.
  - intros a nd Ha.
    apply lookup_alter_inv in Ha as (nd0 & Ha & [[-> ->]|[Hne ->]]).
    + simpl. apply NoDup_seq.
    + destruct (Hold a nd0 Ha) as [Ha0|(_ & _ & ->)].
      * by apply (shape_nodup h Hs a nd0).
      * constructor.
  - intros a nd p Ha Hp.
    apply lookup_alter_inv in Ha as (nd0 & Ha & Hnd).
    assert (parent nd0 = Some p) as Hp0.
    { by destruct Hnd as [[_ ->]|[_ ->]]. }
    destruct (Hold a nd0 Ha) as [Ha0|(Hge & Hpn & _)].
    + by apply (shape_parent h Hs a nd0 p).
    + rewrite Hpn in Hp0. simplify_eq. lia.
Qed.

Lemma root_node_alter (f : _Node TreeNode → _Node TreeNode) n h :
  (∀ nd, parent (f nd) = parent nd) →
  (∃ nd, h !! 0%nat = Some nd ∧ parent nd = None) →
  ∃ nd, alter f n h !! 0%nat = Some nd ∧ parent nd = None.
Proof.
  intros Hfp (nd0 & H0 & Hp).
  destruct (lookup_alter_keeps f n h 0%nat nd0 H0) as (nd & Hnd & Heq).
  exists nd. split; [done|]. destruct Heq as [->| ->]; [by rewrite Hfp|done].
Qed.

(** ** The cursor row under local updates *)

Lemma visible_of_eq st :
  visible_of st = preorder (length (heap st)) (heap st) (root st) 0.
Proof. apply build_visible_preorder. Qed.

Lemma py_index_nonneg {A} (l : list A) (i : Z) :
  0 ≤ i → py_index l i = l !! Z.to_nat i.
Proof.
  intros Hi. unfold py_index. by rewrite (proj2 (Z.leb_le 0 i) Hi).
Qed.

Lemma focused_cursor_ok st n d : focused st n d → cursor_ok st.
Proof.
  intros (vis & Hv & H0 & Hi). exists vis. split; [done|].
  apply lookup_lt_Some in Hi. lia.
Qed.

Lemma cursor_ok_focused st : cursor_ok st → ∃ n d, focused st n d.
Proof.
  intros (vis & Hv & H0 & Hlt).
  destruct (lookup_lt_is_Some_2 vis (Z.to_nat (cursor st))) as [[n d] Hi];
    [lia|].
  exists n, d, vis. done.
Qed.

Lemma focused_lookup st n d : focused st n d → is_Some (heap st !! n).
Proof.
  intros (vis & Hv & _ & Hi). rewrite visible_of_eq in Hv.
  eapply preorder_lookup; [exact Hv|].
  apply list_elem_of_fmap. exists (n, d). split; [done|].
  by eapply list_elem_of_lookup_2.
Qed.

Lemma focused_local st st' n d :
  tree_shape (heap st) → tree_shape (heap st') →
  root st = 0%nat → root st' = 0%nat → cursor st' = cursor st →
  agree_except n (heap st) (heap st') →
  focused st n d → focused st' n d.
Proof.
  intros Hs Hs' Hr Hr' Hc Hag (vis & Hv & H0 & Hi).
  rewrite visible_of_eq, Hr in Hv.
  assert (0 < length (heap st'))%nat as Hlen.
  { apply preorder_inv in Hv as (_ & nd & _ & Hnd & _).
    apply lookup_lt_Some in Hnd. destruct Hag as [Hle _]. lia. }
  destruct (preorder_total (heap st') Hs' (length (heap st')) 0%nat 0%nat)
    as [vis' Hv']; [lia..|].
  exists vis'. rewrite visible_of_eq, Hr', Hc. split_and!; [done..|].
  by eapply (preorder_row_stable n (heap st) (heap st')).
Qed.

(** ** The load block *)

Lemma load_loaded st n nd :
  heap st !! n = Some nd → loaded nd = true → load n st = (st, Continue).
Proof. intros Hn Hl. unfold load. by rewrite Hn, Hl. Qed.

Lemma load_fetch_ok st n nd kids s1 :
  heap st !! n = Some nd → loaded nd = false →
  get_children (id nd) (ds st) = (Ok kids, s1) →
  load n st
  = (update n (set_loaded true)
       (update n (set_children (seq (length (heap st)) (length kids)))
          (with_heap (heap st ++ ((λ cid, new_Node cid (Some n)) <$> kids))
             (with_fetch n s1 st))), Continue).
Proof.
  intros Hn Hl Hg. unfold load. rewrite Hn, Hl, Hg. simpl.
  by rewrite alloc_children_eq.
Qed.

Lemma load_fetch_fail st n nd e s1 :
  heap st !! n = Some nd → loaded nd = false →
  get_children (id nd) (ds st) = (Raise e, s1) →
  load n st = (with_fetch n s1 st, Raised e).
Proof. intros Hn Hl Hg. unfold load. by rewrite Hn, Hl, Hg. Qed.

Lemma flags_ok_new (cid : TreeNode) (p : option addr) :
  flags_ok (new_Node cid p).
Proof. by split. Qed.

Lemma load_spec st n d :
  inv st → fetched_loaded st → focused st n d →
  post (load n st) ∧ focused (load n st).1 n d ∧
  (∀ sel, (load n st).2 ≠ Break sel) ∧
  ((load n st).2 = Continue →
     ∃ nd', heap (load n st).1 !! n = Some nd' ∧ loaded nd' = true).
Proof.
  intros Hinv Hfl Hfoc. destruct (focused_lookup st n d Hfoc) as [nd Hn].
  destruct (loaded nd) eqn:Hl.
  { rewrite (load_loaded st n nd) by done. simpl.
    split_and!; [by split|done|done|eauto]. }
  assert (n ∉ fetched st) as Hnf.
  { intros Hin. destruct (Hfl n Hin) as (nd' & Hn' & Hl'). congruence. }
  assert (NoDup (fetched st ++ [n])) as Hnd.
  { apply NoDup_app. split_and!; [apply Hinv| |apply NoDup_singleton].
    intros x Hx ->%list_elem_of_singleton. done. }
  destruct (get_children (id nd) (ds st)) as [[kids|e] s1] eqn:Hg.
  2:{ rewrite (load_fetch_fail st n nd e s1) by done. simpl.
      assert (focused (with_fetch n s1 st) n d) as Hfoc' by exact Hfoc.
      split_and!; [|done|done|done].
      split_and!; [done| |done].
      destruct Hinv as [? ? ? ? ? Hld ?]. split; try done.
      intros a x Ha Hx. apply elem_of_app. left. by eapply Hld. }
  rewrite (load_fetch_ok st n nd kids s1) by done. simpl.
  set (cs := seq (length (heap st)) (length kids)).
  set (news := (λ cid, new_Node cid (Some n)) <$> kids).
  set (st' := update n (set_loaded true) (update n (set_children cs)
                (with_heap (heap st ++ news) (with_fetch n s1 st)))).
  assert (n < length (heap st))%nat as Hlt by by eapply lookup_lt_Some.
  assert (heap st' =
    alter (set_loaded true) n (alter (set_children cs) n (heap st ++ news)))
    as Hheap by done.
  assert (tree_shape (heap st')) as Hs'.
  { rewrite Hheap. apply tree_shape_alter; [done..|].
    apply tree_shape_load; [apply Hinv|done]. }
  assert (agree_except n (heap st) (heap st')) as Hag.
  { rewrite Hheap.
    eapply agree_except_trans; [apply agree_except_app|].
    eapply agree_except_trans; apply agree_except_alter. }
  assert (heap st' !! n = Some (set_loaded true (set_children cs nd))) as Hn'.
  { rewrite Hheap, !list_lookup_alter_eq.
    by rewrite (lookup_app_l_Some _ _ _ _ Hn). }
  assert (focused st' n d) as Hfoc'.
  { eapply (focused_local st st'); try done; try apply Hinv. }
  assert (inv st') as Hinv'; [|split_and!; [|done|done|eauto];
                                split_and!; [done|done|]].
  - split.
    + apply Hinv.
    + rewrite Hheap. apply root_node_alter; [done|].
      apply root_node_alter; [done|].
      destruct (inv_root_node st Hinv) as (nd0 & H0 & Hp0).
      exists nd0. split; [|done]. by apply lookup_app_l_Some.
    + done.
    + rewrite Hheap. apply Forall_lookup. intros a x Ha.
      apply lookup_alter_inv in Ha as (x1 & Ha & Hx1).
      apply lookup_alter_inv in Ha as (x0 & Ha & Hx0).
      destruct Hx1 as [[-> ->]|[Hne ->]]; [by split|].
      destruct Hx0 as [[? _]|[_ ->]]; [done|].
      apply lookup_app_Some in Ha as [Ha|[_ Ha]].
      * eapply Forall_lookup_1; [apply Hinv|done].
      * apply list_lookup_fmap_Some in Ha as (cid & -> & _).
        apply flags_ok_new.
    + done.
    + intros a x Ha Hx. change (fetched st') with (fetched st ++ [n]).
      apply elem_of_app. rewrite Hheap in Ha.
      apply lookup_alter_inv in Ha as (x1 & Ha & Hx1).
      apply lookup_alter_inv in Ha as (x0 & Ha & Hx0).
      destruct Hx1 as [[-> ->]|[Hne ->]]; [right; by left|].
      destruct Hx0 as [[? _]|[_ ->]]; [done|]. left.
      apply lookup_app_Some in Ha as [Ha|[_ Ha]].
      * by eapply (inv_loaded st Hinv).
      * by apply list_lookup_fmap_Some in Ha as (cid & -> & _).
    + by eapply focused_cursor_ok.
  - intros _ a Ha. change (fetched st') with (fetched st ++ [n]) in Ha.
    destruct (decide (a = n)) as [->|Hne]; [eauto|].
    apply elem_of_app in Ha as [Ha|Ha%list_elem_of_singleton]; [|done].
    destruct (Hfl a Ha) as (x & Hx & Hlx). exists x. split; [|done].
    by apply Hag.
Qed.

Lemma set_expanded_spec st n d (b : bool) :
  inv st → fetched_loaded st → focused st n d →
  (b = true → ∃ nd, heap st !! n = Some nd ∧ loaded nd = true) →
  post (update n (set_expanded b) st, Continue) ∧
  focused (update n (set_expanded b) st) n d.
Proof.
  intros Hinv Hfl Hfoc Hb.
  set (st' := update n (set_expanded b) st).
  assert (heap st' = alter (set_expanded b) n (heap st)) as Hheap by done.
  assert (tree_shape (heap st')) as Hs'.
  { rewrite Hheap. apply tree_shape_alter; [done..|apply Hinv]. }
  assert (focused st' n d) as Hfoc'.
  { eapply (focused_local st st'); try done; try apply Hinv.
    rewrite Hheap. apply agree_except_alter. }
  assert (inv st') as Hinv'; [|split; [|done]; split_and!; [done|done|]].
  - split.
    + apply Hinv.
    + rewrite Hheap. apply root_node_alter; [done|apply Hinv].
    + done.
    + rewrite Hheap. apply Forall_lookup. intros a x Ha.
      apply lookup_alter_inv in Ha as (x0 & Ha & Hx).
      pose proof (Forall_lookup_1 _ _ _ _ (inv_flags st Hinv) Ha) as [Hf1 Hf2].
      destruct Hx as [[-> ->]|[_ ->]]; [|by split]. split; simpl; [|done].
      intros ->. destruct (Hb eq_refl) as (nd & Hnd & Hl). congruence.
    + apply Hinv.
    + intros a x Ha Hx. rewrite Hheap in Ha.
      apply lookup_alter_inv in Ha as (x0 & Ha & Hx0).
      apply (inv_loaded st Hinv a x0 Ha).
      by destruct Hx0 as [[_ ->]|[_ ->]].
    + by eapply focused_cursor_ok.
  - intros _ a Ha. destruct (Hfl a Ha) as (x & Hx & Hlx).
    destruct (lookup_alter_keeps (set_expanded b) n (heap st) a x Hx)
      as (x' & Hx' & Heq).
    exists x'. split; [done|]. by destruct Heq as [->| ->].
Qed.

End Store.

Section Controller.
Context {TreeNode DS : Type} `{!DataSource TreeNode DS}.
Implicit Types (h : list (_Node TreeNode)) (n a c : addr) (d : nat).
Implicit Types (nd : _Node TreeNode) (st : state TreeNode DS).
Implicit Types (vis : list (addr * nat)).

(** ** The key handlers *)

Lemma with_cursor_id st : with_cursor (cursor st) st = st.
Proof. by destruct st. Qed.

Lemma truthy_length vis : (0 < length vis)%nat → truthy vis = true.
Proof. destruct vis; simpl; [lia|done]. Qed.

Lemma clamp_id (c : Z) vis :
  0 ≤ c < Z.of_nat (length vis) → clamp c vis = c.
Proof.
  intros Hc. unfold clamp. rewrite truthy_length by lia. lia.
Qed.

Lemma index_of_Some p vis idx :
  index_of p vis = Some idx →
  (∃ dp, vis !! idx = Some (p, dp)) ∧
  ∀ j x dx, (j < idx)%nat → vis !! j = Some (x, dx) → x ≠ p.
Proof.
  revert idx. induction vis as [|[x dx] vis IH]; intros idx; simpl; [done|].
  destruct (decide (x = p)) as [->|Hne].
  - intros [= <-]. split; [by exists dx|]. intros; lia.
  - destruct (index_of p vis) as [i|]; simpl; [|done]. intros [= <-].
    destruct (IH i eq_refl) as [Hi Hfirst]. split; [done|].
    intros [|j] y dy Hj Hy; simpl in Hy; [by simplify_eq|].
    eapply Hfirst; [|done]. lia.
Qed.

Lemma index_of_elem p vis : p ∈ vis.*1 → is_Some (index_of p vis).
Proof.
  induction vis as [|[x dx] vis IH]; simpl; [by intros ?%elem_of_nil|].
  intros Hp. destruct (decide (x = p)); [eauto|].
  apply elem_of_cons in Hp as [?|Hp]; [done|].
  destruct (IH Hp) as [i ->]. simpl. eauto.
Qed.

Lemma post_with_cursor st vis (c : Z) :
  inv st → fetched_loaded st → visible_of st = Some vis →
  0 ≤ c < Z.of_nat (length vis) →
  post (with_cursor c st, Continue).
Proof.
  intros Hinv Hfl Hv Hc. split_and!; [done| |done].
  destruct Hinv. split; try done. by exists vis.
Qed.

Section Focus.
Variables (st : state TreeNode DS) (vis : list (addr * nat)) (n : addr)
  (d : nat).
Hypothesis Hinv : inv st.
Hypothesis Hfl : fetched_loaded st.
Hypothesis Hv : visible_of st = Some vis.
Hypothesis H0 : 0 ≤ cursor st.
Hypothesis Hi : vis !! Z.to_nat (cursor st) = Some (n, d).

Lemma focus_focused : focused st n d.
Proof. by exists vis. Qed.

Lemma focus_truthy : truthy vis = true.
Proof. apply truthy_length. apply lookup_lt_Some in Hi. lia. Qed.

Lemma focus_index : py_index vis (cursor st) = Some (n, d).
Proof. by rewrite py_index_nonneg. Qed.

Lemma key_right_post : post (key_right vis st).
Proof.
  unfold key_right. rewrite focus_truthy, focus_index. simpl.
  destruct (load_spec st n d Hinv Hfl focus_focused)
    as (Hpost & Hfoc1 & Hnb & Hc).
  destruct (load n st) as [st1 o1]. simpl in *.
  destruct o1; try exact Hpost.
  destruct (Hc eq_refl) as (nd' & Hnd' & Hld). rewrite Hnd'.
  destruct (truthy (children nd')); [|exact Hpost].
  destruct Hpost as (_ & Hinv1 & Hfl1).
  apply (set_expanded_spec st1 n d true); eauto.
Qed.

Lemma key_space_post : post (key_space vis st).
Proof.
  unfold key_space. rewrite focus_truthy, focus_index. simpl.
  destruct (load_spec st n d Hinv Hfl focus_focused)
    as (Hpost & Hfoc1 & Hnb & Hc).
  destruct (load n st) as [st1 o1]. simpl in *.
  destruct o1; try exact Hpost.
  destruct (Hc eq_refl) as (nd' & Hnd' & Hld). rewrite Hnd'.
  destruct Hpost as (_ & Hinv1 & Hfl1).
  apply (set_expanded_spec st1 n d); eauto.
Qed.

Lemma key_enter_post : post (key_enter vis st).
Proof.
  unfold key_enter. rewrite focus_truthy, focus_index. simpl.
  destruct (load_spec st n d Hinv Hfl focus_focused)
    as (Hpost & Hfoc1 & Hnb & Hc).
  destruct (load n st) as [st1 o1]. simpl in *.
  destruct o1; try exact Hpost.
  destruct (Hc eq_refl) as (nd' & Hnd' & Hld). rewrite Hnd'.
  destruct Hpost as (_ & Hinv1 & _). by split_and!.
Qed.

Lemma key_left_post : post (key_left vis st).
Proof.
  unfold key_left. rewrite focus_truthy, focus_index. simpl.
  destruct (focused_lookup st n d focus_focused) as [nd ->].
  destruct (expanded nd).
  { apply (set_expanded_spec st n d false); auto using focus_focused.
    done. }
  destruct (parent nd) as [p|]; [|by split_and!].
  rewrite Hv. destruct (index_of p vis) as [idx|] eqn:Hidx; [|by split_and!].
  apply index_of_Some in Hidx as [[dp Hdp] _].
  apply lookup_lt_Some in Hdp.
  eapply post_with_cursor; [done..|lia].
Qed.

Lemma key_s_post : post (key_s vis st).
Proof.
  unfold key_s. rewrite focus_truthy, focus_index. simpl.
  destruct (focused_lookup st n d focus_focused) as [nd ->].
  by split_and!.
Qed.

Lemma footer_continue : footer vis st = Continue.
Proof.
  unfold footer. rewrite focus_truthy, focus_index. simpl.
  by destruct (focused_lookup st n d focus_focused) as [nd ->].
Qed.

Lemma on_key_post (ch : Z) : post (on_key ch vis st).
Proof.
  pose proof (lookup_lt_Some _ _ _ Hi) as Hlt.
  unfold on_key. rewrite focus_truthy.
  repeat match goal with
         | |- context [if ?b then _ else _] => destruct b
         end;
    auto using key_right_post, key_left_post, key_enter_post, key_space_post,
      key_s_post.
  - by split_and!.
  - eapply post_with_cursor; [done..|lia].
  - eapply post_with_cursor; [done..|lia].
  - by split_and!.
Qed.

Lemma iteration_focus (inp : input) :
  iteration inp st
  = match inp with
    | Interrupt => (st, Raised KeyboardInterrupt)
    | Key ch => on_key ch vis st
    end.
Proof.
  pose proof (lookup_lt_Some _ _ _ Hi) as Hlt.
  unfold iteration. rewrite Hv. simpl.
  rewrite clamp_id by lia. rewrite with_cursor_id, footer_continue. done.
Qed.

End Focus.

Lemma iteration_post st (inp : input) :
  inv st → fetched_loaded st → post (iteration inp st).
Proof.
  intros Hinv Hfl.
  destruct (cursor_ok_focused st (inv_cursor st Hinv))
    as (n & d & vis & Hv & H0 & Hi).
  rewrite (iteration_focus st vis n d Hv H0 Hi).
  destruct inp as [ch|]; [by eapply on_key_post|by split_and!].
Qed.

Lemma loop_post (keys : list input) st :
  inv st → fetched_loaded st → post (loop keys st).
Proof.
  revert st. induction keys as [|k keys IH]; intros st Hinv Hfl; simpl.
  - by split_and!.
  - pose proof (iteration_post st k Hinv Hfl) as Hpost.
    destruct (iteration k st) as [st1 o]. destruct o; try exact Hpost.
    destruct Hpost as (_ & Hinv1 & Hfl1). apply IH; auto.
Qed.

(** ** Root construction and the whole session *)

Lemma tree_shape_single (root_id : TreeNode) :
  tree_shape [new_Node root_id None].
Proof.
  split.
  - intros [|a] nd c Ha Hc; simpl in Ha; simplify_eq.
    by apply elem_of_nil in Hc.
  - intros [|a] nd Ha; simpl in Ha; simplify_eq. constructor.
  - intros [|a] nd p Ha Hp; simpl in Ha; by simplify_eq.
Qed.

Lemma build_root_eq (root_id : TreeNode) (s0 : DS) scr :
  build_root root_id s0 scr
  = let '(r, s1) := get_children root_id s0 in
    let st0 := {| heap := [new_Node root_id None]; root := 0%nat; cursor := 0;
                  ds := s1; fetched := [0%nat]; screen := scr |} in
    match r with
    | Raise KeyboardInterrupt => (st0, Raised KeyboardInterrupt)
    | _ =>
        let kids := match r with Ok kids => kids | Raise _ => [] end in
        (update 0%nat (set_expanded true)
           (update 0%nat (set_loaded true)
              (update 0%nat (set_children (seq 1 (length kids)))
                 (with_heap
                    ([new_Node root_id None]
                       ++ ((λ cid, new_Node cid (Some 0%nat)) <$> kids))
                    st0))), Continue)
    end.
Proof.
  unfold build_root, alloc. simpl.
  destruct (get_children root_id s0) as [[kids|[|]] s1];
    by rewrite ?alloc_children_eq.
Qed.

Lemma root_loaded_post (root_id : TreeNode) (kids : list TreeNode)
    (s1 : DS) scr :
  let st0 := {| heap := [new_Node root_id None]; root := 0%nat; cursor := 0;
                ds := s1; fetched := [0%nat]; screen := scr |} in
  post (update 0%nat (set_expanded true)
          (update 0%nat (set_loaded true)
             (update 0%nat (set_children (seq 1 (length kids)))
                (with_heap
                   ([new_Node root_id None]
                      ++ ((λ cid, new_Node cid (Some 0%nat)) <$> kids))
                   st0))), Continue).
Proof.
  intros st0.
  set (news := (λ cid, new_Node cid (Some 0%nat)) <$> kids).
  set (h0 := [new_Node root_id None]).
  set (st := update _ _ _).
  assert (heap st =
    alter (set_expanded true) 0%nat (alter (set_loaded true) 0%nat
      (alter (set_children (seq (length h0) (length kids))) 0%nat
         (h0 ++ news)))) as Hheap by done.
  assert (tree_shape (heap st)) as Hs.
  { rewrite Hheap. do 2 (apply tree_shape_alter; [done..|]).
    apply tree_shape_load; [apply tree_shape_single|simpl; lia]. }
  assert (∃ nd, heap st !! 0%nat = Some nd ∧
                parent nd = None ∧ loaded nd = true) as (nd & Hnd & Hp & Hl).
  { rewrite Hheap. simpl. eauto. }
  assert (cursor_ok st) as Hc.
  { destruct (preorder_total (heap st) Hs (length (heap st)) 0%nat 0%nat)
      as [vis Hvis]; [by eapply lookup_lt_Some|lia|].
    exists vis. rewrite visible_of_eq. split; [done|].
    apply preorder_head in Hvis as [rest ->]. simpl. lia. }
  assert (inv st) as Hinv; [|split_and!; [done|done|]].
  - assert (∀ a x, heap st !! a = Some x → a = 0%nat ∨ ∃ cid,
              x = new_Node cid (Some 0%nat)) as Hnodes.
    { intros a x Ha. rewrite Hheap in Ha.
      apply lookup_alter_inv in Ha as (x2 & Ha & Hx2).
      apply lookup_alter_inv in Ha as (x1 & Ha & Hx1).
      apply lookup_alter_inv in Ha as (x0 & Ha & Hx0).
      destruct Hx2 as [[-> ->]|[Hne ->]]; [by left|].
      destruct Hx1 as [[? _]|[_ ->]]; [done|].
      destruct Hx0 as [[? _]|[_ ->]]; [done|].
      destruct a as [|a]; [done|]. simpl in Ha.
      apply list_lookup_fmap_Some in Ha as (cid & -> & _). eauto. }
    split; [done|eauto|done| |apply NoDup_singleton| |done].
    + apply Forall_lookup. intros a x Ha.
      destruct (Hnodes a x Ha) as [->|[cid ->]]; [|apply flags_ok_new].
      assert (x = nd) as -> by congruence. split; [done|congruence].
    + intros a x Ha Hx. destruct (Hnodes a x Ha) as [->|[cid ->]]; [|done].
      by left.
  - intros _ a Ha%list_elem_of_singleton. subst a. eauto.
Qed.

Lemma build_root_post (root_id : TreeNode) (s0 : DS) scr :
  post (build_root root_id s0 scr).
Proof.
  rewrite build_root_eq.
  destruct (get_children root_id s0) as [[kids|[|]] s1].
  - apply root_loaded_post.
  - apply (root_loaded_post root_id []).
  - split_and!; [done| |done]. split; simpl.
    + done.
    + eauto.
    + apply tree_shape_single.
    + repeat constructor; done.
    + apply NoDup_singleton.
    + intros [|a] x Ha Hx; simpl in Ha; by simplify_eq.
    + by exists [(0%nat, 0%nat)].
Qed.

Lemma ui_post (keys : list input) (root_id : TreeNode) (s0 : DS) scr :
  post (_ui keys root_id s0 scr).
Proof.
  unfold _ui. pose proof (build_root_post root_id s0 (_enter_alt_screen scr))
    as Hpost.
  destruct (build_root _ _ _) as [st o]. destruct o; try exact Hpost.
  destruct Hpost as (_ & Hinv & Hfl). apply loop_post; auto.
Qed.

(** ** What no transition touches *)

Lemma extends_refl st : extends st st.
Proof. by split_and!. Qed.

Lemma extends_trans st1 st2 st3 :
  extends st1 st2 → extends st2 st3 → extends st1 st3.
Proof.
  intros (? & ? & ?) (? & ? & ?). split_and!; [congruence..|].
  by etrans.
Qed.

Lemma load_extends n st : extends st (load n st).1.
Proof.
  unfold load. repeat case_match; simpl; try apply extends_refl.
  all: split_and!; [done..|]; by apply prefix_app_r.
Qed.

Ltac frame_tac :=
  repeat case_match; simplify_eq;
  repeat match goal with
         | H : load ?n ?st = _ |- _ =>
             let H' := fresh "Hload" in
             pose proof (load_extends n st) as H'; rewrite H in H'; clear H
         end;
  match goal with
  | |- extends ?st _ => first [exact (extends_refl st) | eassumption]
  | H : extends ?st _ |- extends ?st _ => exact H
  end.

Lemma key_right_extends vis st : extends st (key_right vis st).1.
Proof. unfold key_right. frame_tac. Qed.

Lemma key_left_extends vis st : extends st (key_left vis st).1.
Proof. unfold key_left. frame_tac. Qed.

Lemma key_enter_extends vis st : extends st (key_enter vis st).1.
Proof. unfold key_enter. frame_tac. Qed.

Lemma key_space_extends vis st : extends st (key_space vis st).1.
Proof. unfold key_space. frame_tac. Qed.

Lemma key_s_extends vis st : extends st (key_s vis st).1.
Proof. unfold key_s. frame_tac. Qed.

Lemma on_key_extends (ch : Z) vis st : extends st (on_key ch vis st).1.
Proof.
  unfold on_key.
  repeat match goal with
         | |- context [if ?b then _ else _] => destruct b
         end;
    auto using key_right_extends, key_left_extends, key_enter_extends,
      key_space_extends, key_s_extends;
    exact (extends_refl st).
Qed.

Lemma iteration_extends (inp : input) st : extends st (iteration inp st).1.
Proof.
  unfold iteration. destruct (visible_of st) as [vis|]; [|apply extends_refl].
  simpl. destruct (footer vis _); try exact (extends_refl st).
  destruct inp as [ch|]; [|exact (extends_refl st)].
  apply (extends_trans _ (with_cursor (clamp (cursor st) vis) st));
    [exact (extends_refl st)|apply on_key_extends].
Qed.

Lemma loop_extends (keys : list input) st : extends st (loop keys st).1.
Proof.
  revert st. induction keys as [|k keys IH]; intros st; simpl;
    [apply extends_refl|].
  pose proof (iteration_extends k st) as Hk.
  destruct (iteration k st) as [st1 o]. destruct o; try exact Hk.
  eapply extends_trans; [exact Hk|apply IH].
Qed.

(** The session state after more input continues the one after less. *)
Lemma loop_app (keys keys' : list input) st :
  loop (keys ++ keys') st
  = match loop keys st with
    | (st1, Continue) => loop keys' st1
    | other => other
    end.
Proof.
  revert st. induction keys as [|k keys IH]; intros st; simpl.
  - by destruct (loop keys' st).
  - destruct (iteration k st) as [st1 o]. destruct o; auto.
Qed.

Lemma ui_app (keys keys' : list input) (root_id : TreeNode) (s0 : DS) scr :
  _ui (keys ++ keys') root_id s0 scr
  = match _ui keys root_id s0 scr with
    | (st1, Continue) => loop keys' st1
    | other => other
    end.
Proof.
  unfold _ui. destruct (build_root _ _ _) as [st o].
  destruct o; auto using loop_app.
Qed.

Lemma ui_screen (keys : list input) (root_id : TreeNode) (s0 : DS) scr :
  screen (_ui keys root_id s0 scr).1 = scr ++ [EnterAlt].
Proof.
  unfold _ui. rewrite build_root_eq.
  destruct (get_children root_id s0) as [[kids|[|]] s1]; simpl; try done.
  - destruct (loop_extends keys (update 0%nat (set_expanded true)
      (update 0%nat (set_loaded true)
        (update 0%nat (set_children (seq 1 (length kids)))
          (with_heap ([new_Node root_id None]
             ++ ((λ cid, new_Node cid (Some 0%nat)) <$> kids))
             {| heap := [new_Node root_id None]; root := 0%nat; cursor := 0;
                ds := s1; fetched := [0%nat];
                screen := _enter_alt_screen scr |})))))
      as (_ & Hscr & _).
    destruct (loop keys _) as [st o]. by destruct o.
  - destruct (loop_extends keys (update 0%nat (set_expanded true)
      (update 0%nat (set_loaded true)
        (update 0%nat (set_children [])
          (with_heap [new_Node root_id None]
             {| heap := [new_Node root_id None]; root := 0%nat; cursor := 0;
                ds := s1; fetched := [0%nat];
                screen := _enter_alt_screen scr |})))))
      as (_ & Hscr & _).
    destruct (loop keys _) as [st o]. by destruct o.
Qed.

End Controller.

Section Steps.
Context {TreeNode DS : Type} `{!DataSource TreeNode DS}.
Implicit Types (h : list (_Node TreeNode)) (n a c : addr) (d : nat).
Implicit Types (nd : _Node TreeNode) (st : state TreeNode DS).
Implicit Types (vis : list (addr * nat)).

(** ** Single transitions, spelled out *)

(** The state a session is in while it goes on. *)
Lemma ui_browsing (keys : list input) (root_id : TreeNode) (s0 : DS) scr st :
  _ui keys root_id s0 scr = (st, Continue) → inv st ∧ fetched_loaded st.
Proof.
  intros Hui. pose proof (ui_post keys root_id s0 scr) as (_ & Hinv & Hfl).
  rewrite Hui in Hinv, Hfl. auto.
Qed.

Lemma on_key_dispatch vis st :
  on_key KEY_RIGHT vis st = key_right vis st
  ∧ on_key ord_l vis st = key_right vis st
  ∧ on_key KEY_LEFT vis st = key_left vis st
  ∧ on_key ord_h vis st = key_left vis st
  ∧ on_key 10 vis st = key_enter vis st
  ∧ on_key 13 vis st = key_enter vis st
  ∧ on_key ord_space vis st = key_space vis st
  ∧ on_key ord_s vis st = key_s vis st.
Proof. by split_and!. Qed.

Lemma focused_parent_visible st n d nd p vis :
  inv st → visible_of st = Some vis → focused st n d →
  heap st !! n = Some nd → parent nd = Some p → p ∈ vis.*1.
Proof.
  intros Hinv Hv (vis' & Hv' & _ & Hi) Hn Hp.
  assert (vis' = vis) as -> by congruence. clear Hv'.
  rewrite visible_of_eq, (inv_root st Hinv) in Hv.
  destruct (preorder_parent_in _ _ _ _ _ (inv_shape st Hinv) Hv n)
    as [->|(nd' & p' & Hn' & Hp' & Hin)].
  - apply list_elem_of_fmap. exists (n, d). split; [done|].
    by eapply list_elem_of_lookup_2.
  - destruct (inv_root_node st Hinv) as (nd0 & H0 & Hp0). congruence.
  - congruence.
Qed.

(** Collapse: left on an expanded node. *)
Lemma left_expanded st n d nd :
  inv st → fetched_loaded st → focused st n d →
  heap st !! n = Some nd → expanded nd = true →
  let st' := update n (set_expanded false) st in
  iteration (Key KEY_LEFT) st = (st', Continue)
  ∧ iteration (Key ord_h) st = (st', Continue)
  ∧ inv st' ∧ fetched_loaded st' ∧ focused st' n d.
Proof.
  intros Hinv Hfl Hfoc Hn He st'.
  destruct (set_expanded_spec st n d false Hinv Hfl Hfoc)
    as ((_ & Hinv' & Hfl') & Hfoc'); [done|].
  destruct Hfoc as (vis & Hv & H0 & Hi).
  rewrite !(iteration_focus st vis n d Hv H0 Hi).
  destruct (on_key_dispatch vis st) as (_ & _ & -> & -> & _).
  unfold key_left.
  rewrite (focus_truthy st vis n d Hi), (focus_index st vis n d H0 Hi).
  simpl. rewrite Hn, He. split_and!; auto.
Qed.

(** Left on a node that is not expanded and has a parent. *)
Lemma left_to_parent st n d nd p vis :
  inv st → fetched_loaded st → visible_of st = Some vis → focused st n d →
  heap st !! n = Some nd → expanded nd = false → parent nd = Some p →
  ∃ idx dp,
    iteration (Key KEY_LEFT) st = (with_cursor (Z.of_nat idx) st, Continue)
    ∧ iteration (Key ord_h) st = (with_cursor (Z.of_nat idx) st, Continue)
    ∧ vis !! idx = Some (p, dp)
    ∧ ∀ j x dx, (j < idx)%nat → vis !! j = Some (x, dx) → x ≠ p.
Proof.
  intros Hinv Hfl Hv Hfoc Hn He Hp.
  pose proof (focused_parent_visible st n d nd p vis Hinv Hv Hfoc Hn Hp)
    as Hin.
  destruct (index_of_elem p vis Hin) as [idx Hidx].
  destruct (index_of_Some p vis idx Hidx) as [[dp Hdp] Hfirst].
  exists idx, dp.
  destruct Hfoc as (vis' & Hv' & H0 & Hi).
  assert (vis' = vis) as -> by congruence. clear Hv'.
  rewrite !(iteration_focus st vis n d Hv H0 Hi).
  destruct (on_key_dispatch vis st) as (_ & _ & -> & -> & _).
  unfold key_left.
  rewrite (focus_truthy st vis n d Hi), (focus_index st vis n d H0 Hi).
  simpl. rewrite Hn, He, Hp, Hv, Hidx. done.
Qed.

Lemma truthy_nonempty {A} (l : list A) : l ≠ [] → truthy l = true.
Proof. by destruct l. Qed.

(** Expand: right on a node whose children were fetched before. *)
Lemma right_loaded st n d nd :
  inv st → fetched_loaded st → focused st n d →
  heap st !! n = Some nd → loaded nd = true → children nd ≠ [] →
  let st' := update n (set_expanded true) st in
  iteration (Key KEY_RIGHT) st = (st', Continue)
  ∧ inv st' ∧ fetched_loaded st' ∧ focused st' n d.
Proof.
  intros Hinv Hfl Hfoc Hn Hl Hc st'.
  destruct (set_expanded_spec st n d true Hinv Hfl Hfoc)
    as ((_ & Hinv' & Hfl') & Hfoc'); [eauto|].
  destruct Hfoc as (vis & Hv & H0 & Hi).
  rewrite !(iteration_focus st vis n d Hv H0 Hi).
  destruct (on_key_dispatch vis st) as (-> & _).
  unfold key_right.
  rewrite (focus_truthy st vis n d Hi), (focus_index st vis n d H0 Hi).
  simpl. rewrite (load_loaded st n nd Hn Hl), Hn, (truthy_nonempty _ Hc).
  split_and!; auto.
Qed.

(** Expand: right on a node never fetched, when the fetch returns at least
    one child. *)
Lemma right_unloaded st n d nd kids s1 :
  inv st → fetched_loaded st → focused st n d →
  heap st !! n = Some nd → loaded nd = false →
  get_children (id nd) (ds st) = (Ok kids, s1) → kids ≠ [] →
  let cs := seq (length (heap st)) (length kids) in
  let st' :=
    update n (set_expanded true)
      (update n (set_loaded true)
         (update n (set_children cs)
            (with_heap (heap st ++ ((λ cid, new_Node cid (Some n)) <$> kids))
               (with_fetch n s1 st)))) in
  iteration (Key KEY_RIGHT) st = (st', Continue)
  ∧ inv st' ∧ fetched_loaded st' ∧ focused st' n d
  ∧ heap st' !! n
    = Some (set_expanded true (set_loaded true (set_children cs nd))).
Proof.
  intros Hinv Hfl Hfoc Hn Hl Hg Hk cs st'.
  destruct (load_spec st n d Hinv Hfl Hfoc) as (Hpost & Hfoc1 & _ & _).
  rewrite (load_fetch_ok st n nd kids s1 Hn Hl Hg) in Hpost, Hfoc1.
  destruct Hpost as (_ & Hinv1 & Hfl1). simpl in Hinv1, Hfl1, Hfoc1.
  specialize (Hfl1 eq_refl).
  set (st1 := update n (set_loaded true) _) in *.
  assert (heap st1 !! n = Some (set_loaded true (set_children cs nd)))
    as Hn1.
  { unfold st1. simpl. rewrite !list_lookup_alter_eq.
    by rewrite (lookup_app_l_Some _ _ _ _ Hn). }
  destruct (set_expanded_spec st1 n d true Hinv1 Hfl1 Hfoc1)
    as ((_ & Hinv' & Hfl') & Hfoc'); [eauto|].
  assert (truthy cs = true) as Hcs.
  { unfold cs. destruct kids; [done|]. done. }
  destruct Hfoc as (vis & Hv & H0 & Hi).
  rewrite !(iteration_focus st vis n d Hv H0 Hi).
  destruct (on_key_dispatch vis st) as (-> & _).
  unfold key_right.
  rewrite (focus_truthy st vis n d Hi), (focus_index st vis n d H0 Hi).
  simpl. rewrite (load_fetch_ok st n nd kids s1 Hn Hl Hg).
  fold cs. fold st1. rewrite Hn1. simpl. rewrite Hcs.
  split_and!; auto.
  change (alter (set_expanded true) n (heap st1) !! n = Some
            (set_expanded true (set_loaded true (set_children cs nd)))).
  by rewrite list_lookup_alter_eq, Hn1.
Qed.

(** The objects made for the children of [n] sit, in the order of [kids], at
    the addresses handed out. *)
Lemma fresh_rows h n (kids : list TreeNode) (h' : list (_Node TreeNode)) :
  (n < length h)%nat →
  (∀ c, c ≠ n →
     h' !! c = (h ++ ((λ cid, new_Node cid (Some n)) <$> kids)) !! c) →
  Forall2 (λ c cid, h' !! c = Some (new_Node cid (Some n)))
    (seq (length h) (length kids)) kids.
Proof.
  intros Hn Hh'. apply Forall2_same_length_lookup_2.
  { by rewrite length_seq. }
  intros i c cid Hc Hcid. apply lookup_seq in Hc as [-> Hi].
  rewrite Hh' by lia. rewrite lookup_app_r by lia.
  replace (length h + i - length h)%nat with i by lia.
  by rewrite list_lookup_fmap, Hcid.
Qed.

Lemma fresh_rows_ids (h' : list (_Node TreeNode)) n (cs : list addr)
    (kids : list TreeNode) :
  Forall2 (λ c cid, h' !! c = Some (new_Node cid (Some n))) cs kids →
  Forall2 (λ c cid, ∃ cn, h' !! c = Some cn ∧ id cn = cid) cs kids
  ∧ Forall (λ c, ∃ cn, h' !! c = Some cn ∧ expanded cn = false) cs.
Proof.
  induction 1 as [|c cid cs kids Hc _ [IH1 IH2]]; [by split|].
  split; constructor; eauto.
Qed.

End Steps.

(** * The claims *)

Section Claims.
Context {TreeNode DS : Type} `{!DataSource TreeNode DS}.
Implicit Types (h : list (_Node TreeNode)) (n a c : addr) (d : nat).
Implicit Types (nd : _Node TreeNode) (st : state TreeNode DS).
Implicit Types (vis : list (addr * nat)).


(** C4.  After root construction and after every transition, every node
    satisfies: expanded implies loaded, and not loaded implies no
    children. *)
Theorem node_flags_invariant (keys : list input) (root_id : TreeNode)
    (s0 : DS) scr :
  Forall flags_ok (heap (_ui keys root_id s0 scr).1).
Proof. apply ui_post. Qed.

(** C5.  After root construction and after every transition, including the
    ones that shrink the visible list, the cursor is an index into the
    visible list of the tree as it now is; the clamp at the head of the next
    pass therefore finds it in range already. *)
Theorem cursor_within_visible (keys : list input) (root_id : TreeNode)
    (s0 : DS) scr :
  let st := (_ui keys root_id s0 scr).1 in
  ∃ vis, visible_of st = Some vis
    ∧ 0 ≤ cursor st ≤ Z.of_nat (length vis) - 1
    ∧ 0 ≤ clamp (cursor st) vis ≤ Z.of_nat (length vis) - 1
    ∧ clamp (cursor st) vis = cursor st.
Proof.
  intros st.
  destruct (inv_cursor st (proj1 (proj2 (ui_post keys root_id s0 scr))))
    as (vis & Hv & Hc).
  exists vis. rewrite clamp_id by done. repeat split; try done; lia.
Qed.

(** C8.  With the cursor on a row of the visible list, the collapse/left
    input (left arrow or [h]) on an expanded node clears its [expanded] flag
    and changes nothing else; on a node that is not expanded and has a
    parent, it moves the cursor to the row of the rebuilt visible list that
    holds the parent object itself (the same address, and the first and only
    row that does), leaving the tree as it is. *)
Theorem collapse_left (keys : list input) (root_id : TreeNode) (s0 : DS) scr
    st n d nd (ch : Z) :
  _ui keys root_id s0 scr = (st, Continue) →
  focused st n d → heap st !! n = Some nd →
  ch = KEY_LEFT ∨ ch = ord_h →
  (expanded nd = true →
     iteration (Key ch) st = (update n (set_expanded false) st, Continue))
  ∧ (expanded nd = false → ∀ p, parent nd = Some p →
       ∃ vis idx dp,
         visible_of st = Some vis
         ∧ iteration (Key ch) st = (with_cursor (Z.of_nat idx) st, Continue)
         ∧ visible_of (with_cursor (Z.of_nat idx) st) = Some vis
         ∧ vis !! idx = Some (p, dp)
         ∧ ∀ j x dx, j ≠ idx → vis !! j = Some (x, dx) → x ≠ p).
Proof.
  intros Hui Hfoc Hn Hch. destruct (ui_browsing _ _ _ _ _ Hui) as [Hinv Hfl].
  split.
  - intros He.
    destruct (left_expanded st n d nd Hinv Hfl Hfoc Hn He) as (H1 & H2 & _).
    by destruct Hch as [-> | ->].
  - intros He p Hp. pose proof Hfoc as (vis & Hv & _).
    destruct (left_to_parent st n d nd p vis Hinv Hfl Hv Hfoc Hn He Hp)
      as (idx & dp & H1 & H2 & Hidx & _).
    exists vis, idx, dp. split_and!; [done| |done|done|].
    + by destruct Hch as [-> | ->].
    + intros j x dx Hne Hj ->. apply Hne.
      rewrite visible_of_eq in Hv.
      pose proof (preorder_NoDup _ _ _ _ _ (inv_shape st Hinv) Hv) as Hnd.
      eapply (NoDup_lookup _ _ _ _ Hnd); rewrite list_lookup_fmap.
      * by rewrite Hj.
      * by rewrite Hidx.
Qed.

(** C6.  In any session no node is fetched twice: the log of calls to
    [get_children] never lists a node more than once; once a node is marked
    loaded, nothing the user types afterwards adds it to the log again; and
    expand, collapse, expand on a node not yet loaded (whose fetch returns
    children) calls the data source once, at the first expand, the children
    fetched then being the ones shown after the second. *)
Theorem fetch_at_most_once (keys : list input) (root_id : TreeNode) (s0 : DS)
    scr :
  NoDup (fetched (_ui keys root_id s0 scr).1)
  ∧ (∀ st n nd keys',
       _ui keys root_id s0 scr = (st, Continue) →
       heap st !! n = Some nd → loaded nd = true →
       ∃ more,
         fetched (_ui (keys ++ keys') root_id s0 scr).1 = fetched st ++ more
         ∧ n ∉ more)
  ∧ (∀ st n d nd kids s1,
       _ui keys root_id s0 scr = (st, Continue) →
       focused st n d → heap st !! n = Some nd → loaded nd = false →
       get_children (id nd) (ds st) = (Ok kids, s1) → kids ≠ [] →
       ∃ st1 st2 st3 nd1,
         _ui (keys ++ [Key KEY_RIGHT]) root_id s0 scr = (st1, Continue)
         ∧ _ui (keys ++ [Key KEY_RIGHT; Key KEY_LEFT]) root_id s0 scr
           = (st2, Continue)
         ∧ _ui (keys ++ [Key KEY_RIGHT; Key KEY_LEFT; Key KEY_RIGHT])
             root_id s0 scr = (st3, Continue)
         ∧ fetched st1 = fetched st ++ [n]
         ∧ fetched st2 = fetched st ++ [n]
         ∧ fetched st3 = fetched st ++ [n]
         ∧ ds st3 = s1
         ∧ heap st1 !! n = Some nd1
         ∧ expanded nd1 = true ∧ children nd1 ≠ []
         ∧ heap st2 !! n = Some (set_expanded false nd1)
         ∧ heap st3 !! n = Some nd1).
Proof.
  split_and!.
  - apply ui_post.
  - intros st n nd keys' Hui Hn Hl.
    destruct (ui_browsing _ _ _ _ _ Hui) as [Hinv Hfl].
    pose proof (ui_post (keys ++ keys') root_id s0 scr) as (_ & Hinv' & _).
    rewrite ui_app, Hui in Hinv' |- *.
    destruct (loop_extends keys' st) as (_ & _ & [more Hmore]).
    exists more. split; [done|].
    pose proof (inv_fetched _ Hinv') as Hnd. rewrite Hmore in Hnd.
    apply NoDup_app in Hnd as (_ & Hdis & _). apply Hdis.
    by eapply (inv_loaded st Hinv).
  - intros st n d nd kids s1 Hui Hfoc Hn Hl Hg Hk.
    destruct (ui_browsing _ _ _ _ _ Hui) as [Hinv Hfl].
    destruct (right_unloaded st n d nd kids s1 Hinv Hfl Hfoc Hn Hl Hg Hk)
      as (Hr1 & Hinv1 & Hfl1 & Hfoc1 & Hn1).
    set (cs := seq (length (heap st)) (length kids)) in *.
    set (st1 := update n (set_expanded true) _) in *.
    set (nd1 := set_expanded true (set_loaded true (set_children cs nd)))
      in *.
    destruct (left_expanded st1 n d nd1 Hinv1 Hfl1 Hfoc1 Hn1 eq_refl)
      as (Hr2 & _ & Hinv2 & Hfl2 & Hfoc2).
    set (st2 := update n (set_expanded false) st1) in *.
    assert (heap st2 !! n = Some (set_expanded false nd1)) as Hn2.
    { change (alter (set_expanded false) n (heap st1) !! n
              = Some (set_expanded false nd1)).
      by rewrite list_lookup_alter_eq, Hn1. }
    assert (cs ≠ []) as Hcs by (unfold cs; by destruct kids).
    destruct (right_loaded st2 n d _ Hinv2 Hfl2 Hfoc2 Hn2 eq_refl Hcs)
      as (Hr3 & _).
    set (st3 := update n (set_expanded true) st2) in *.
    exists st1, st2, st3, nd1.
    rewrite !ui_app, Hui. simpl. rewrite Hr1, Hr2, Hr3.
    split_and!; try done.
    change (alter (set_expanded true) n (heap st2) !! n = Some nd1).
    by rewrite list_lookup_alter_eq, Hn2.
Qed.

(** C10.  [get_children] returns the members of the node followed by its
    structural children.  That is the order in which the browser shows them:
    at root construction, and when a node is expanded for the first time, the
    rows right below the node are its children, one level deeper, and their
    identifiers, read downwards, are the members and then the children. *)
Theorem get_children_members_first (node : TreeNode) (s s1 s2 : DS)
    (ms cs : list TreeNode) :
  getMembers node s = (Ok ms, s1) → getChildren node s1 = (Ok cs, s2) →
  get_children node s = (Ok (ms ++ cs), s2)
  ∧ (∀ scr, ∃ st rows,
       build_root node s scr = (st, Continue)
       ∧ visible_of st
         = Some ((root st, 0%nat) :: ((λ c, (c, 1%nat)) <$> rows))
       ∧ Forall2 (λ c cid, ∃ cn, heap st !! c = Some cn ∧ id cn = cid)
           rows (ms ++ cs))
  ∧ (∀ keys root_id s0 scr st n d nd,
       _ui keys root_id s0 scr = (st, Continue) →
       focused st n d → heap st !! n = Some nd → loaded nd = false →
       id nd = node → ds st = s → ms ++ cs ≠ [] →
       ∃ st' vis' rows suf,
         iteration (Key KEY_RIGHT) st = (st', Continue)
         ∧ visible_of st' = Some vis'
         ∧ drop (Z.to_nat (cursor st')) vis'
           = (n, d) :: ((λ c, (c, S d)) <$> rows) ++ suf
         ∧ Forall2 (λ c cid, ∃ cn, heap st' !! c = Some cn ∧ id cn = cid)
             rows (ms ++ cs)).
Proof.
  intros Hm Hc.
  assert (get_children node s = (Ok (ms ++ cs), s2)) as Hg.
  { unfold get_children. by rewrite Hm, Hc. }
  split_and!; [done| |].
  - intros scr. pose proof (build_root_post node s scr) as (_ & Hinv & _).
    rewrite build_root_eq, Hg in Hinv |- *. simpl in Hinv |- *.
    set (kids := ms ++ cs) in *.
    set (st := update 0%nat (set_expanded true) _) in *.
    exists st, (seq 1 (length kids)). split; [done|].
    destruct (fresh_rows_ids (heap st) 0%nat (seq 1 (length kids)) kids)
      as [Hids Hcol].
    { apply (fresh_rows [new_Node node None] 0%nat kids); [simpl; lia|].
      intros c Hne. unfold st. simpl. by destruct c. }
    split; [|done].
    destruct (inv_cursor st Hinv) as (vis & Hv & _). rewrite Hv.
    rewrite visible_of_eq in Hv. f_equal.
    by apply (preorder_collapsed_children _ (heap st) 0%nat 0%nat
                (set_expanded true (set_loaded true
                   (set_children (seq 1 (length kids))
                      (new_Node node None)))) vis) in Hv.
  - intros keys root_id s0 scr st n d nd Hui Hfoc Hn Hl <- <- Hk.
    destruct (ui_browsing _ _ _ _ _ Hui) as [Hinv Hfl].
    destruct (right_unloaded st n d nd (ms ++ cs) s2 Hinv Hfl Hfoc Hn Hl Hg
                Hk) as (Hr & Hinv' & Hfl' & Hfoc' & Hn').
    set (kids := ms ++ cs) in *.
    set (rows := seq (length (heap st)) (length kids)) in *.
    set (st' := update n (set_expanded true) _) in *.
    destruct Hfoc' as (vis' & Hv' & H0' & Hi').
    destruct (fresh_rows_ids (heap st') n rows kids) as [Hids Hcol].
    { apply (fresh_rows (heap st) n kids); [by eapply lookup_lt_Some|].
      intros c Hne. unfold st'. simpl.
      by rewrite !list_lookup_alter_ne. }
    pose proof Hv' as Hp. rewrite visible_of_eq in Hp.
    destruct (preorder_segment _ _ _ _ _ Hp _ _ _ Hi')
      as (fuel' & sub & suf & Hsub & Hdrop).
    apply (preorder_collapsed_children _ _ _ _ _ _ Hn' eq_refl Hcol) in Hsub.
    exists st', vis', rows, suf. split_and!; [done..| |done].
    rewrite Hdrop, Hsub. done.
Qed.

(** ** Around the claims the program does not meet *)

(** At root construction a failed fetch is swallowed: the root ends up
    loaded, expanded and without children, and the session goes on. *)
Lemma root_fetch_failure_swallowed (root_id : TreeNode) (s0 s1 : DS) scr :
  get_children root_id s0 = (Raise Exception, s1) →
  ∃ st nd,
    build_root root_id s0 scr = (st, Continue)
    ∧ heap st !! root st = Some nd
    ∧ loaded nd = true ∧ children nd = [].
Proof.
  intros Hg. rewrite build_root_eq, Hg. simpl.
  eexists _, _. split_and!; [reflexivity|reflexivity|done|done].
Qed.

(** In the three handlers the same failure leaves [_ui]: nothing catches it,
    and the node stays not loaded. *)
Lemma load_failure_propagates (keys : list input) (root_id : TreeNode)
    (s0 : DS) st n d nd (s1 : DS) (ch : Z) :
  _ui keys root_id s0 [ExitAlt] = (st, Continue) →
  focused st n d → heap st !! n = Some nd → loaded nd = false →
  get_children (id nd) (ds st) = (Raise Exception, s1) →
  ch ∈ [KEY_RIGHT; ord_l; 10; 13; ord_space] →
  tree_select (keys ++ [Key ch]) root_id s0
  = (with_fetch n s1 st, Propagated Exception).
Proof.
  intros Hui (vis & Hv & H0 & Hi) Hn Hl Hg Hch.
  unfold tree_select, _exit_alt_screen. simpl. rewrite ui_app, Hui. simpl.
  rewrite (iteration_focus st vis n d Hv H0 Hi).
  assert (on_key ch vis st = (with_fetch n s1 st, Raised Exception)) as ->;
    [|done].
  destruct (on_key_dispatch vis st) as (E1 & E2 & _ & _ & E3 & E4 & E5 & _).
  repeat (apply elem_of_cons in Hch as [->|Hch]);
    [rewrite E1|rewrite E2|rewrite E3|rewrite E4|rewrite E5|
     by apply elem_of_nil in Hch];
    unfold key_right, key_enter, key_space;
    rewrite (focus_truthy st vis n d Hi), (focus_index st vis n d H0 Hi);
    simpl; by rewrite (load_fetch_fail st n nd Exception s1 Hn Hl Hg).
Qed.

(** Whenever the load block returns, Enter selects the current node, whether
    or not it has children and whether or not they are shown. *)
Lemma enter_selects (keys : list input) (root_id : TreeNode)
    (s0 : DS) scr st n d nd (ch : Z) :
  _ui keys root_id s0 scr = (st, Continue) →
  focused st n d → heap st !! n = Some nd →
  loaded nd = true
    ∨ (∃ kids s1, get_children (id nd) (ds st) = (Ok kids, s1)) →
  ch = 10 ∨ ch = 13 →
  ∃ st', iteration (Key ch) st = (st', Break (Some (id nd))).
Proof.
  intros Hui (vis & Hv & H0 & Hi) Hn Hld Hch.
  rewrite (iteration_focus st vis n d Hv H0 Hi).
  assert (on_key ch vis st = key_enter vis st) as ->.
  { destruct (on_key_dispatch vis st) as (_ & _ & _ & _ & E3 & E4 & _).
    by destruct Hch as [-> | ->]. }
  unfold key_enter.
  rewrite (focus_truthy st vis n d Hi), (focus_index st vis n d H0 Hi).
  simpl. destruct (loaded nd) eqn:Hl.
  - rewrite (load_loaded st n nd Hn Hl), Hn. eauto.
  - destruct Hld as [?|(kids & s1 & Hg)]; [done|].
    rewrite (load_fetch_ok st n nd kids s1 Hn Hl Hg). simpl.
    rewrite !list_lookup_alter_eq, (lookup_app_l_Some _ _ _ _ Hn). simpl.
    eauto.
Qed.

(** Of its own two screen calls the program makes [_exit_alt_screen] first
    and [_enter_alt_screen] second, however the session ends. *)
Lemma tree_select_screen (keys : list input) (root_id : TreeNode) (s0 : DS) :
  screen (tree_select keys root_id s0).1 = [ExitAlt; EnterAlt].
Proof.
  unfold tree_select, _exit_alt_screen. simpl.
  pose proof (ui_screen keys root_id s0 [ExitAlt]) as Hs.
  destruct (_ui keys root_id s0 [ExitAlt]) as [st o].
  by destruct o as [| |[|]|].
Qed.

End Claims.


(** * The program on the example source *)

(** C1.  On the example source the fetch for the first child of the root
    fails.  Moving onto that node and pressing expand, Enter or Space makes
    [tree_select] raise: the failure is not swallowed, the session is
    aborted, and the node is left not loaded. *)
Theorem fetch_failure_on_expand_propagates :
  (tree_select [Key KEY_DOWN; Key KEY_RIGHT] 0%nat tt).2
  = Propagated Exception
  ∧ (tree_select [Key KEY_DOWN; Key 10] 0%nat tt).2 = Propagated Exception
  ∧ (tree_select [Key KEY_DOWN; Key ord_space] 0%nat tt).2
    = Propagated Exception
  ∧ loaded <$> heap (tree_select [Key KEY_DOWN; Key KEY_RIGHT] 0%nat tt).1
               !! 1%nat
    = Some false.
Proof. by vm_compute. Qed.

(** C7.  Enter on a node that was never loaded and whose fetch fails does
    not end in a selection: [tree_select] raises. *)
Theorem enter_on_failing_node_raises :
  tree_select [Key KEY_DOWN; Key 10] 0%nat tt
  = ((tree_select [Key KEY_DOWN; Key 10] 0%nat tt).1, Propagated Exception)
  ∧ (∀ v, (tree_select [Key KEY_DOWN; Key 10] 0%nat tt).2 ≠ Returned v).
Proof. split; [by vm_compute|]. intros v. by vm_compute. Qed.

(** Expand, collapse, expand on node 2 of the example: one fetch. *)
Lemma fetch_at_most_once_witness :
  (∃ more,
     fetched (_ui ([Key KEY_DOWN; Key KEY_DOWN] ++ [Key KEY_RIGHT]) 0%nat tt
                []).1 = fetched demo_before ++ more
     ∧ 0%nat ∉ more)
  ∧ fetched (_ui ([Key KEY_DOWN; Key KEY_DOWN]
                    ++ [Key KEY_RIGHT; Key KEY_LEFT; Key KEY_RIGHT])
               0%nat tt []).1 = fetched demo_before ++ [2%nat].
Proof.
  destruct (@fetch_at_most_once nat unit demo
              [Key KEY_DOWN; Key KEY_DOWN] 0%nat tt [])
    as (_ & Hloaded & Honce).
  split.
  - destruct (Hloaded demo_before 0%nat
                {| id := 0%nat; label := "A"; parent := None;
                   children := [1; 2; 3]%nat; loaded := true;
                   expanded := true |}
                [Key KEY_RIGHT]) as (more & Hmore & Hnot);
      [vm_compute; reflexivity..|].
    exists more. split; [exact Hmore|exact Hnot].
  - destruct (Honce demo_before 2%nat 1%nat
                {| id := 2%nat; label := "C"; parent := Some 0%nat;
                   children := []; loaded := false; expanded := false |}
                [4; 5]%nat tt)
      as (st1 & st2 & st3 & nd1 & _ & _ & H3 & _ & _ & Hf3 & _).
    + vm_compute. reflexivity.
    + exists [(0, 0); (1, 1); (2, 1); (3, 1)]%nat.
      split_and!; [vm_compute; reflexivity|vm_compute; discriminate|
                   vm_compute; reflexivity].
    + vm_compute. reflexivity.
    + reflexivity.
    + vm_compute. reflexivity.
    + discriminate.
    + rewrite H3. exact Hf3.
Defined.

(** Left on the expanded node 2, and [h] on its collapsed child. *)
Lemma collapse_left_witness :
  iteration (Key KEY_LEFT) demo_state
  = (update 2%nat (set_expanded false) demo_state, Continue)
  ∧ ∃ vis idx dp,
      visible_of demo_below = Some vis
      ∧ iteration (Key ord_h) demo_below
        = (with_cursor (Z.of_nat idx) demo_below, Continue)
      ∧ vis !! idx = Some (2%nat, dp).
Proof.
  split.
  - refine (proj1 (@collapse_left nat unit demo demo_keys 0%nat tt []
             demo_state 2%nat 1%nat
             {| id := 2%nat; label := "C"; parent := Some 0%nat;
                children := [4; 5]%nat; loaded := true; expanded := true |}
             KEY_LEFT _ _ _ _) _).
    + vm_compute. reflexivity.
    + exists [(0, 0); (1, 1); (2, 1); (4, 2); (5, 2); (3, 1)]%nat.
      split_and!; [vm_compute; reflexivity|vm_compute; discriminate|
                   vm_compute; reflexivity].
    + vm_compute. reflexivity.
    + left. reflexivity.
    + reflexivity.
  - destruct (@collapse_left nat unit demo (demo_keys ++ [Key KEY_DOWN])
                0%nat tt [] demo_below 4%nat 2%nat
                {| id := 4%nat; label := "E"; parent := Some 2%nat;
                   children := []; loaded := false; expanded := false |}
                ord_h) as [_ Hup].
    + vm_compute. reflexivity.
    + exists [(0, 0); (1, 1); (2, 1); (4, 2); (5, 2); (3, 1)]%nat.
      split_and!; [vm_compute; reflexivity|vm_compute; discriminate|
                   vm_compute; reflexivity].
    + vm_compute. reflexivity.
    + right. reflexivity.
    + destruct (Hup eq_refl 2%nat eq_refl)
        as (vis & idx & dp & Hv & Hit & _ & Hidx & _).
      exists vis, idx, dp. split_and!; [exact Hv|exact Hit|exact Hidx].
Defined.

(** Node 2 of the example: member 4, then child 5. *)
Lemma get_children_members_first_witness :
  get_children 2%nat tt = (Ok [4; 5]%nat, tt)
  ∧ ∃ st' vis' rows suf,
      iteration (Key KEY_RIGHT) demo_before = (st', Continue)
      ∧ visible_of st' = Some vis'
      ∧ drop (Z.to_nat (cursor st')) vis'
        = (2%nat, 1%nat) :: ((λ c, (c, 2%nat)) <$> rows) ++ suf
      ∧ Forall2 (λ c cid, ∃ cn, heap st' !! c = Some cn ∧ id cn = cid)
          rows [4; 5]%nat.
Proof.
  destruct (@get_children_members_first nat unit demo 2%nat tt tt tt
              [4%nat] [5%nat] eq_refl eq_refl) as (Hg & _ & Hshow).
  split; [exact Hg|].
  apply (Hshow [Key KEY_DOWN; Key KEY_DOWN] 0%nat tt [] demo_before
           2%nat 1%nat
           {| id := 2%nat; label := "C"; parent := Some 0%nat;
              children := []; loaded := false; expanded := false |}).
  - vm_compute. reflexivity.
  - exists [(0, 0); (1, 1); (2, 1); (3, 1)]%nat.
    split_and!; [vm_compute; reflexivity|vm_compute; discriminate|
                 vm_compute; reflexivity].
  - vm_compute. reflexivity.
  - reflexivity.
  - reflexivity.
  - reflexivity.
  - discriminate.
Defined.

(** * Further properties of the controller *)

Section Session.
Context {TreeNode DS : Type} `{!DataSource TreeNode DS}.
Implicit Types (h : list (_Node TreeNode)) (n a c : addr) (d : nat).
Implicit Types (nd : _Node TreeNode) (st : state TreeNode DS).
Implicit Types (vis : list (addr * nat)) (keys : list input).

(** ** One more key *)

Lemma tree_select_eq keys (root_id : TreeNode) (s0 : DS) :
  tree_select keys root_id s0
  = ((_ui keys root_id s0 [ExitAlt]).1,
     answer (_ui keys root_id s0 [ExitAlt]).2).
Proof.
  unfold tree_select, _exit_alt_screen. simpl.
  destruct (_ui keys root_id s0 [ExitAlt]) as [st o].
  by destruct o as [| |[|]|].
Qed.

Lemma tree_select_waiting keys (root_id : TreeNode) (s0 : DS) st :
  tree_select keys root_id s0 = (st, Waiting) →
  _ui keys root_id s0 [ExitAlt] = (st, Continue).
Proof.
  rewrite tree_select_eq.
  destruct (_ui keys root_id s0 [ExitAlt]) as [st' o]. simpl.
  destruct o as [| |[|]|]; intros [= ->]; done.
Qed.

Lemma tree_select_snoc keys (k : input) (root_id : TreeNode) (s0 : DS) st :
  tree_select keys root_id s0 = (st, Waiting) →
  tree_select (keys ++ [k]) root_id s0
  = ((iteration k st).1, answer (iteration k st).2).
Proof.
  intros Hui%tree_select_waiting. rewrite tree_select_eq, ui_app, Hui.
  simpl. destruct (iteration k st) as [st1 o]. by destruct o.
Qed.

(** While the caller waits, the invariants hold and the cursor is on a
    row. *)
Lemma waiting_focused keys (root_id : TreeNode) (s0 : DS) st :
  tree_select keys root_id s0 = (st, Waiting) →
  inv st ∧ fetched_loaded st ∧
  ∃ vis n d, visible_of st = Some vis ∧ 0 ≤ cursor st
             ∧ vis !! Z.to_nat (cursor st) = Some (n, d).
Proof.
  intros Hui%tree_select_waiting.
  destruct (ui_browsing _ _ _ _ _ Hui) as [Hinv Hfl]. split_and!; [done..|].
  destruct (cursor_ok_focused st (inv_cursor st Hinv)) as (n & d & vis & ?).
  by exists vis, n, d.
Qed.

Lemma tree_select_key keys (ch : Z) (root_id : TreeNode) (s0 : DS) st vis :
  tree_select keys root_id s0 = (st, Waiting) →
  visible_of st = Some vis →
  tree_select (keys ++ [Key ch]) root_id s0
  = ((on_key ch vis st).1, answer (on_key ch vis st).2).
Proof.
  intros Hw Hv. rewrite (tree_select_snoc _ _ _ _ _ Hw).
  destruct (waiting_focused _ _ _ _ Hw)
    as (_ & _ & vis' & n & d & Hv' & H0 & Hi).
  assert (vis' = vis) as -> by congruence.
  by rewrite (iteration_focus st vis n d Hv H0 Hi).
Qed.

(** X1.  The quit keys ([q], Escape) end the call with no selection, whatever
    the state of the browser, and leave everything as it was: no node is
    touched and the data source is not called. *)
Theorem cancel_returns_none keys (root_id : TreeNode) (s0 : DS) st (ch : Z) :
  tree_select keys root_id s0 = (st, Waiting) →
  ch = ord_q ∨ ch = 27 →
  tree_select (keys ++ [Key ch]) root_id s0 = (st, Returned None).
Proof.
  intros Hw Hch.
  destruct (waiting_focused _ _ _ _ Hw) as (_ & _ & vis & n & d & Hv & _).
  rewrite (tree_select_key _ _ _ _ _ vis Hw Hv).
  by destruct Hch as [-> | ->].
Qed.

(** X2.  An interrupt that arrives while the browser waits for a key is
    caught: the call returns no selection and the state is as it was. *)
Theorem interrupt_returns_none keys (root_id : TreeNode) (s0 : DS) st :
  tree_select keys root_id s0 = (st, Waiting) →
  tree_select (keys ++ [Interrupt]) root_id s0 = (st, Returned None).
Proof.
  intros Hw. rewrite (tree_select_snoc _ _ _ _ _ Hw).
  destruct (waiting_focused _ _ _ _ Hw)
    as (_ & _ & vis & n & d & Hv & H0 & Hi).
  by rewrite (iteration_focus st vis n d Hv H0 Hi).
Qed.

(** X3.  The select key [s] ends the call with the identifier of the node
    under the cursor and, unlike Enter, without loading it: the state is as
    it was. *)
Theorem select_current keys (root_id : TreeNode) (s0 : DS) st n d nd :
  tree_select keys root_id s0 = (st, Waiting) →
  focused st n d → heap st !! n = Some nd →
  tree_select (keys ++ [Key ord_s]) root_id s0
  = (st, Returned (Some (id nd))).
Proof.
  intros Hw (vis & Hv & H0 & Hi) Hn.
  rewrite (tree_select_key _ _ _ _ _ vis Hw Hv).
  destruct (on_key_dispatch vis st) as (_ & _ & _ & _ & _ & _ & _ & ->).
  unfold key_s.
  rewrite (focus_truthy st vis n d Hi), (focus_index st vis n d H0 Hi).
  simpl. by rewrite Hn.
Qed.

(** X4.  A key code that is none of the fourteen bound ones (among them the
    -1 of a read without input) changes nothing and the browser goes on
    waiting. *)
Theorem unbound_key_ignored keys (root_id : TreeNode) (s0 : DS) st (ch : Z) :
  tree_select keys root_id s0 = (st, Waiting) →
  ch ∉ [ord_q; 27; KEY_UP; ord_k; KEY_DOWN; ord_j; KEY_RIGHT; ord_l;
        KEY_LEFT; ord_h; 10; 13; ord_space; ord_s] →
  tree_select (keys ++ [Key ch]) root_id s0 = (st, Waiting).
Proof.
  intros Hw Hch.
  destruct (waiting_focused _ _ _ _ Hw) as (_ & _ & vis & n & d & Hv & _).
  rewrite (tree_select_key _ _ _ _ _ vis Hw Hv).
  repeat (apply not_elem_of_cons in Hch as [?%Z.eqb_neq Hch]).
  unfold on_key.
  repeat match goal with H : (ch =? _) = false |- _ => rewrite H; clear H end.
  done.
Qed.

(** X5.  Up and down (arrows or [k]/[j]) move the cursor by exactly one row
    and change nothing else; on the first row up, and on the last row down,
    change nothing at all. *)
Theorem cursor_moves_one_row keys (root_id : TreeNode) (s0 : DS) st vis
    (ch : Z) :
  tree_select keys root_id s0 = (st, Waiting) →
  visible_of st = Some vis →
  (ch = KEY_DOWN ∨ ch = ord_j →
     tree_select (keys ++ [Key ch]) root_id s0
     = (if decide (cursor st = Z.of_nat (length vis) - 1) then st
        else with_cursor (cursor st + 1) st, Waiting))
  ∧ (ch = KEY_UP ∨ ch = ord_k →
       tree_select (keys ++ [Key ch]) root_id s0
       = (if decide (cursor st = 0) then st
          else with_cursor (cursor st - 1) st, Waiting)).
Proof.
  intros Hw Hv. rewrite (tree_select_key _ _ _ _ _ vis Hw Hv).
  destruct (waiting_focused _ _ _ _ Hw)
    as (_ & _ & vis' & n & d & Hv' & H0 & Hi).
  assert (vis' = vis) as -> by congruence.
  pose proof (lookup_lt_Some _ _ _ Hi) as Hlt.
  assert (on_key KEY_DOWN vis st = on_key ord_j vis st
          ∧ on_key KEY_UP vis st = on_key ord_k vis st) as [Ej Ek] by done.
  split; intros Hch.
  - assert (on_key ch vis st
            = (with_cursor (Z.min (Z.of_nat (length vis) - 1) (cursor st + 1))
                 st, Continue)) as ->.
    { destruct Hch as [-> | ->]; [rewrite Ej|]; unfold on_key; simpl;
        by rewrite (focus_truthy st vis n d Hi). }
    simpl. case_decide as Hc.
    + rewrite Z.min_l by lia. by rewrite <- Hc, with_cursor_id.
    + rewrite Z.min_r by lia. done.
  - assert (on_key ch vis st
            = (with_cursor (Z.max 0 (cursor st - 1)) st, Continue)) as ->.
    { by destruct Hch as [-> | ->]. }
    simpl. case_decide as Hc.
    + rewrite Z.max_l by lia. by rewrite <- Hc, with_cursor_id.
    + rewrite Z.max_r by lia. done.
Qed.

(** ** Updates that change nothing, and changes the view does not show *)

Lemma alter_restore (f : _Node TreeNode → _Node TreeNode) n h nd :
  h !! n = Some nd → f nd = nd → alter f n h = h.
Proof.
  intros Hn Hf. apply list_eq. intros i. rewrite list_lookup_alter.
  case_decide; [subst i; by rewrite Hn; simpl; rewrite Hf|done].
Qed.

Lemma update_restore (f : _Node TreeNode → _Node TreeNode) n st nd :
  heap st !! n = Some nd → f nd = nd → update n f st = st.
Proof.
  intros Hn Hf. unfold update, with_heap.
  rewrite (alter_restore f n (heap st) nd Hn Hf). by destruct st.
Qed.

Lemma update_update (f g : _Node TreeNode → _Node TreeNode) n st :
  update n f (update n g st) = update n (f ∘ g) st.
Proof.
  unfold update, with_heap. simpl. by rewrite list_alter_alter_eq.
Qed.

Lemma set_expanded_same (b : bool) nd :
  expanded nd = b → set_expanded b nd = nd.
Proof. intros <-. by destruct nd. Qed.

Lemma rows_agree (g : addr → option (list (addr * nat))) (cs : list addr)
    (rows rows' : list (list (addr * nat))) :
  Forall2 (λ c r, ∀ r', g c = Some r' → r' = r) cs rows →
  Forall2 (λ c r', g c = Some r') cs rows' →
  rows' = rows.
Proof.
  intros H. revert rows'.
  induction H as [|c r cs rows Hr _ IH]; intros rows' H';
    inversion H' as [|? r' ? rows'' Hr' Hrest]; subst; [done|].
  f_equal; [by apply Hr|by apply IH].
Qed.

(** A node that is collapsed before and after may change in any other way
    (gain children, become loaded) without the visible list changing. *)
Lemma preorder_collapsed_agree n h h' :
  agree_except n h h' →
  (∀ nd, h !! n = Some nd → expanded nd = false) →
  (∀ nd, h' !! n = Some nd → expanded nd = false) →
  ∀ fuel a d vis, preorder fuel h a d = Some vis →
  ∀ fuel' vis', preorder fuel' h' a d = Some vis' → vis' = vis.
Proof.
  intros [_ Hag] Hn Hn'.
  apply (preorder_rows_ind h (λ a d vis, ∀ fuel' vis',
    preorder fuel' h' a d = Some vis' → vis' = vis)).
  - intros a d nd Ha He fuel' vis' Hp'.
    apply preorder_inv in Hp' as (f' & nd' & _ & Ha' & Hp').
    destruct (decide (a = n)) as [->|Hne].
    + by rewrite (Hn' _ Ha') in Hp'.
    + rewrite (Hag a nd Hne Ha) in Ha'. simplify_eq. by rewrite He in Hp'.
  - intros f a d nd rows Ha He Hrows fuel' vis' Hp'.
    destruct (decide (a = n)) as [->|Hne].
    { rewrite (Hn _ Ha) in He. done. }
    apply preorder_inv in Hp' as (f' & nd' & _ & Ha' & Hp').
    rewrite (Hag a nd Hne Ha) in Ha'. simplify_eq. rewrite He in Hp'.
    destruct Hp' as (rows' & Hrows' & ->). do 2 f_equal.
    eapply (rows_agree (λ c, preorder f' h' c (S d))); [|exact Hrows'].
    eapply Forall2_impl; [exact Hrows|]. intros c r [_ Hr] r'. apply Hr.
Qed.

Lemma visible_collapsed_agree n st st' :
  inv st → inv st' → agree_except n (heap st) (heap st') →
  (∀ nd, heap st !! n = Some nd → expanded nd = false) →
  (∀ nd, heap st' !! n = Some nd → expanded nd = false) →
  visible_of st' = visible_of st.
Proof.
  intros Hinv Hinv' Hag Hn Hn'.
  destruct (inv_cursor st Hinv) as (vis & Hv & _).
  destruct (inv_cursor st' Hinv') as (vis' & Hv' & _).
  rewrite Hv, Hv'. f_equal.
  rewrite visible_of_eq, (inv_root _ Hinv) in Hv.
  rewrite visible_of_eq, (inv_root _ Hinv') in Hv'.
  by eapply (preorder_collapsed_agree n (heap st) (heap st')).
Qed.

(** ** A key changes the node under the cursor and no other *)

Lemma load_agree n st : agree_except n (heap st) (heap (load n st).1).
Proof.
  unfold load. destruct (heap st !! n) as [nd|]; [|apply agree_except_refl].
  destruct (loaded nd); [apply agree_except_refl|].
  destruct (get_children (id nd) (ds st)) as [[kids|e] s1];
    [|apply agree_except_refl].
  simpl. rewrite alloc_children_eq. simpl.
  eapply agree_except_trans; [apply agree_except_app|].
  eapply agree_except_trans; apply agree_except_alter.
Qed.

Lemma load_cursor n st : cursor (load n st).1 = cursor st.
Proof. unfold load. by repeat case_match. Qed.

Lemma load_no_break n st sel : (load n st).2 ≠ Break sel.
Proof. unfold load. by repeat case_match. Qed.

Lemma on_key_local (ch : Z) vis st n d :
  0 ≤ cursor st → vis !! Z.to_nat (cursor st) = Some (n, d) →
  agree_except n (heap st) (heap (on_key ch vis st).1).
Proof.
  intros H0 Hi.
  assert (∀ st1 b, agree_except n (heap st) (heap st1) →
            agree_except n (heap st) (heap (update n (set_expanded b) st1)))
    as Hupd.
  { intros st1 b Hag. eapply agree_except_trans; [exact Hag|].
    apply agree_except_alter. }
  pose proof (load_agree n st) as Hl.
  unfold on_key, key_right, key_left, key_enter, key_space, key_s.
  rewrite (focus_truthy st vis n d Hi), (focus_index st vis n d H0 Hi).
  simpl. destruct (load n st) as [st1 o1]. simpl in Hl.
  repeat case_match; simplify_eq; simpl;
    first [exact Hl | apply agree_except_refl | by apply Hupd
          | apply agree_except_alter].
Qed.

(** X6.  Whatever the key, the objects other than the node under the cursor
    are left exactly as they were, and none is dropped: a key can change
    only the node it is pressed on (and add new objects). *)
Theorem key_changes_only_current_node keys (k : input) (root_id : TreeNode)
    (s0 : DS) st n d :
  tree_select keys root_id s0 = (st, Waiting) → focused st n d →
  ∀ a nd, a ≠ n → heap st !! a = Some nd →
    heap (tree_select (keys ++ [k]) root_id s0).1 !! a = Some nd.
Proof.
  intros Hw (vis & Hv & H0 & Hi) a nd Hne Ha.
  rewrite (tree_select_snoc _ _ _ _ _ Hw). simpl.
  rewrite (iteration_focus st vis n d Hv H0 Hi).
  destruct k as [ch|]; [|done].
  by apply (on_key_local ch vis st n d H0 Hi).
Qed.

(** ** Expand, collapse and toggle on the node under the cursor *)

Lemma key_right_cursor vis st : cursor (key_right vis st).1 = cursor st.
Proof.
  unfold key_right. repeat case_match; simplify_eq; simpl; try done;
    match goal with
    | H : load ?n ?st = _ |- _ =>
        let H' := fresh in
        pose proof (load_cursor n st) as H'; by rewrite H in H'
    end.
Qed.

Section Current.
Variables (st : state TreeNode DS) (vis : list (addr * nat)) (n : addr)
  (d : nat) (nd : _Node TreeNode).
Hypothesis Hinv : inv st.
Hypothesis Hfl : fetched_loaded st.
Hypothesis Hv : visible_of st = Some vis.
Hypothesis H0 : 0 ≤ cursor st.
Hypothesis Hi : vis !! Z.to_nat (cursor st) = Some (n, d).
Hypothesis Hn : heap st !! n = Some nd.

Lemma current_flags : flags_ok nd.
Proof. eapply Forall_lookup_1; [apply Hinv|done]. Qed.

(** After Right the cursor is still on the same node, which is loaded if the
    loop goes on, and expanded exactly if it has children. *)
Lemma key_right_focused :
  post (key_right vis st) ∧ focused (key_right vis st).1 n d
  ∧ ((key_right vis st).2 = Continue →
       ∃ nd1, heap (key_right vis st).1 !! n = Some nd1
         ∧ loaded nd1 = true ∧ expanded nd1 = truthy (children nd1)
              || expanded nd1).
Proof.
  pose proof (focus_focused st vis n d Hv H0 Hi) as Hfoc.
  split; [by eapply key_right_post|].
  unfold key_right.
  rewrite (focus_truthy st vis n d Hi), (focus_index st vis n d H0 Hi).
  simpl. destruct (load_spec st n d Hinv Hfl Hfoc)
    as (Hpost & Hfoc1 & Hnb & Hc).
  destruct (load n st) as [st1 o1]. simpl in *.
  destruct o1; try (split; [exact Hfoc1|done]).
  destruct (Hc eq_refl) as (nd' & Hnd' & Hld). rewrite Hnd'.
  destruct Hpost as (_ & Hinv1 & Hfl1).
  destruct (truthy (children nd')) eqn:Ht.
  - destruct (set_expanded_spec st1 n d true Hinv1 (Hfl1 eq_refl) Hfoc1)
      as (_ & Hfoc'); [eauto|].
    split; [exact Hfoc'|]. intros _. simpl.
    rewrite list_lookup_alter_eq, Hnd'. simpl.
    eexists. split_and!; [done|done|]. simpl. by rewrite Ht.
  - split; [exact Hfoc1|]. intros _. simpl. exists nd'.
    split_and!; [done..|]. by rewrite Ht.
Qed.

(** Space on a node that is expanded does what Left does. *)
Lemma key_space_expanded :
  expanded nd = true → key_space vis st = key_left vis st.
Proof.
  intros He. destruct current_flags as [Hl _]. specialize (Hl He).
  unfold key_space, key_left.
  rewrite (focus_truthy st vis n d Hi), (focus_index st vis n d H0 Hi).
  simpl. rewrite (load_loaded st n nd Hn Hl), Hn, He.
  by destruct (truthy (children nd)).
Qed.

(** Space on a node that is not expanded does what Right does. *)
Lemma key_space_collapsed :
  expanded nd = false → key_space vis st = key_right vis st.
Proof.
  intros He. unfold key_space, key_right.
  rewrite (focus_truthy st vis n d Hi), (focus_index st vis n d H0 Hi).
  simpl. destruct (loaded nd) eqn:Hl.
  - rewrite (load_loaded st n nd Hn Hl), Hn, He.
    destruct (truthy (children nd)); [done|].
    by rewrite (update_restore _ n st nd Hn (set_expanded_same false nd He)).
  - destruct (get_children (id nd) (ds st)) as [[kids|e] s1] eqn:Hg.
    + rewrite (load_fetch_ok st n nd kids s1 Hn Hl Hg).
      set (st1 := update n (set_loaded true) _).
      assert (heap st1 !! n = Some (set_loaded true (set_children
                (seq (length (heap st)) (length kids)) nd))) as Hn1.
      { unfold st1. simpl. rewrite !list_lookup_alter_eq.
        by rewrite (lookup_app_l_Some _ _ _ _ Hn). }
      rewrite Hn1. simpl. rewrite He.
      destruct (truthy (seq (length (heap st)) (length kids))); [done|].
      f_equal. apply (update_restore (set_expanded false) n st1 _ Hn1).
      by apply set_expanded_same.
    + by rewrite (load_fetch_fail st n nd e s1 Hn Hl Hg).
Qed.

End Current.

(** X7.  Space is Left on an expanded node and Right on any other: the
    toggle key never does anything the two arrow keys do not do, including
    the fetch and its failure. *)
Theorem space_is_left_or_right keys (root_id : TreeNode) (s0 : DS) st n d nd :
  tree_select keys root_id s0 = (st, Waiting) →
  focused st n d → heap st !! n = Some nd →
  tree_select (keys ++ [Key ord_space]) root_id s0
  = tree_select
      (keys ++ [Key (if expanded nd then KEY_LEFT else KEY_RIGHT)])
      root_id s0.
Proof.
  intros Hw (vis & Hv & H0 & Hi) Hn.
  destruct (waiting_focused _ _ _ _ Hw) as (Hinv & Hfl & _).
  rewrite !(tree_select_key _ _ _ _ _ vis Hw Hv).
  destruct (on_key_dispatch vis st) as (ER & _ & EL & _ & _ & _ & -> & _).
  destruct (expanded nd) eqn:He.
  - by rewrite EL, (key_space_expanded st vis n d nd Hinv H0 Hi Hn He).
  - by rewrite ER, (key_space_collapsed st vis n d nd H0 Hi Hn He).
Qed.

(** X8.  Right pressed twice does what Right pressed once does: the second
    press finds the node loaded, and expanded if it has children, and
    changes nothing (in particular it does not fetch again). *)
Theorem expand_twice_is_expand_once keys (root_id : TreeNode) (s0 : DS)
    st st1 :
  tree_select keys root_id s0 = (st, Waiting) →
  tree_select (keys ++ [Key KEY_RIGHT]) root_id s0 = (st1, Waiting) →
  tree_select (keys ++ [Key KEY_RIGHT; Key KEY_RIGHT]) root_id s0
  = (st1, Waiting).
Proof.
  intros Hw Hw1.
  destruct (waiting_focused _ _ _ _ Hw)
    as (Hinv & Hfl & vis & n & d & Hv & H0 & Hi).
  destruct (focused_lookup st n d (focus_focused st vis n d Hv H0 Hi))
    as [nd Hn].
  pose proof Hw1 as Hr. rewrite (tree_select_key _ _ _ _ _ vis Hw Hv) in Hr.
  destruct (on_key_dispatch vis st) as (ER & _). rewrite ER in Hr.
  destruct (key_right_focused st vis n d Hinv Hfl Hv H0 Hi)
    as (_ & Hfoc1 & Hc).
  destruct (key_right vis st) as [st1' o1]. simpl in *.
  assert (st1' = st1 ∧ o1 = Continue) as [-> ->].
  { destruct o1 as [| |[|]|]; simplify_eq; done. }
  destruct (Hc eq_refl) as (nd1 & Hn1 & Hl1 & He1).
  destruct Hfoc1 as (vis1 & Hv1 & H01 & Hi1).
  change (keys ++ [Key KEY_RIGHT; Key KEY_RIGHT])
    with (keys ++ [Key KEY_RIGHT] ++ [Key KEY_RIGHT]).
  rewrite app_assoc, (tree_select_key _ _ _ _ _ vis1 Hw1 Hv1).
  destruct (on_key_dispatch vis1 st1) as (-> & _). unfold key_right.
  rewrite (focus_truthy st1 vis1 n d Hi1), (focus_index st1 vis1 n d H01 Hi1).
  simpl. rewrite (load_loaded st1 n nd1 Hn1 Hl1), Hn1.
  destruct (truthy (children nd1)); [|done].
  by rewrite (update_restore _ n st1 nd1 Hn1 (set_expanded_same true nd1 He1)).
Qed.

(** X9.  Expanding a node and collapsing it again gives back the visible
    list and the cursor of before: what the expand fetched stays in the store
    but is not shown. *)
Theorem expand_collapse_restores_view keys (root_id : TreeNode) (s0 : DS)
    st st1 n d nd nd1 :
  tree_select keys root_id s0 = (st, Waiting) →
  focused st n d → heap st !! n = Some nd → expanded nd = false →
  tree_select (keys ++ [Key KEY_RIGHT]) root_id s0 = (st1, Waiting) →
  heap st1 !! n = Some nd1 → expanded nd1 = true →
  ∃ st2,
    tree_select (keys ++ [Key KEY_RIGHT; Key KEY_LEFT]) root_id s0
    = (st2, Waiting)
    ∧ visible_of st2 = visible_of st
    ∧ cursor st2 = cursor st
    ∧ heap st2 !! n = Some (set_expanded false nd1).
Proof.
  intros Hw (vis & Hv & H0 & Hi) Hn He Hw1 Hn1 He1.
  destruct (waiting_focused _ _ _ _ Hw) as (Hinv & Hfl & _).
  destruct (waiting_focused _ _ _ _ Hw1) as (Hinv1 & Hfl1 & _).
  pose proof Hw1 as Hr. rewrite (tree_select_key _ _ _ _ _ vis Hw Hv) in Hr.
  destruct (on_key_dispatch vis st) as (ER & _).
  pose proof (on_key_local KEY_RIGHT vis st n d H0 Hi) as Hag.
  rewrite ER in Hr, Hag.
  destruct (key_right_focused st vis n d Hinv Hfl Hv H0 Hi) as (_ & Hfoc1 & _).
  pose proof (key_right_cursor vis st) as Hcur.
  destruct (key_right vis st) as [st1' o1]. simpl in *.
  assert (st1' = st1) as -> by (by simplify_eq).
  destruct (left_expanded st1 n d nd1 Hinv1 Hfl1 Hfoc1 Hn1 He1)
    as (Hl & _ & Hinv2 & _).
  set (st2 := update n (set_expanded false) st1) in *.
  assert (heap st2 !! n = Some (set_expanded false nd1)) as Hn2.
  { change (alter (set_expanded false) n (heap st1) !! n
            = Some (set_expanded false nd1)).
    by rewrite list_lookup_alter_eq, Hn1. }
  exists st2. split_and!; [|  |done|done].
  - change (keys ++ [Key KEY_RIGHT; Key KEY_LEFT])
      with (keys ++ [Key KEY_RIGHT] ++ [Key KEY_LEFT]).
    by rewrite app_assoc, (tree_select_snoc _ _ _ _ _ Hw1), Hl.
  - apply (visible_collapsed_agree n st st2 Hinv Hinv2).
    + eapply agree_except_trans; [exact Hag|]. apply agree_except_alter.
    + intros nd0 Hnd0. congruence.
    + intros nd0 Hnd0. rewrite Hn2 in Hnd0. by simplify_eq.
Qed.

(** X10.  Expanding a node for which the source has no children marks it
    loaded and leaves it collapsed: the visible list and the cursor are as
    before (and, by X8, later presses neither fetch nor change anything). *)
Theorem expand_childless_node keys (root_id : TreeNode) (s0 s1 : DS)
    st n d nd :
  tree_select keys root_id s0 = (st, Waiting) →
  focused st n d → heap st !! n = Some nd → loaded nd = false →
  get_children (id nd) (ds st) = (Ok [], s1) →
  ∃ st1,
    tree_select (keys ++ [Key KEY_RIGHT]) root_id s0 = (st1, Waiting)
    ∧ visible_of st1 = visible_of st
    ∧ cursor st1 = cursor st
    ∧ ds st1 = s1
    ∧ heap st1 !! n = Some (set_loaded true nd).
Proof.
  intros Hw (vis & Hv & H0 & Hi) Hn Hl Hg.
  destruct (waiting_focused _ _ _ _ Hw) as (Hinv & Hfl & _).
  destruct (current_flags st n nd Hinv Hn) as [Hexp Hch].
  assert (expanded nd = false) as He.
  { destruct (expanded nd); [|done]. by rewrite Hexp in Hl. }
  rewrite (tree_select_key _ _ _ _ _ vis Hw Hv).
  destruct (on_key_dispatch vis st) as (-> & _).
  destruct (key_right_focused st vis n d Hinv Hfl Hv H0 Hi)
    as ((_ & Hinv1 & _) & _ & _).
  pose proof (on_key_local KEY_RIGHT vis st n d H0 Hi) as Hag.
  destruct (on_key_dispatch vis st) as (ER & _). rewrite ER in Hag. clear ER.
  revert Hinv1 Hag. unfold key_right.
  rewrite (focus_truthy st vis n d Hi), (focus_index st vis n d H0 Hi).
  simpl. rewrite (load_fetch_ok st n nd [] s1 Hn Hl Hg). simpl.
  rewrite !list_lookup_alter_eq, (lookup_app_l_Some _ _ _ _ Hn). simpl.
  intros Hinv1 Hag.
  set (st1 := update n (set_loaded true) _) in *.
  assert (heap st1 !! n = Some (set_loaded true nd)) as Hn1.
  { unfold st1. simpl.
    rewrite !list_lookup_alter_eq, (lookup_app_l_Some _ _ _ _ Hn). simpl.
    f_equal. destruct nd; simpl in *. by rewrite (Hch Hl). }
  exists st1. split_and!; [done| |done|done|done].
  apply (visible_collapsed_agree n st st1 Hinv Hinv1 Hag).
  - intros nd0 Hnd0. congruence.
  - intros nd0 Hnd0. rewrite Hn1 in Hnd0. by simplify_eq.
Qed.

(** X11.  Space pressed twice on a loaded node that has children leaves the
    whole state as it was. *)
Theorem toggle_twice_restores keys (root_id : TreeNode) (s0 : DS)
    st n d nd :
  tree_select keys root_id s0 = (st, Waiting) →
  focused st n d → heap st !! n = Some nd →
  loaded nd = true → children nd ≠ [] →
  tree_select (keys ++ [Key ord_space; Key ord_space]) root_id s0
  = (st, Waiting).
Proof.
  intros Hw Hfoc Hn Hl Hc.
  destruct (waiting_focused _ _ _ _ Hw) as (Hinv & Hfl & _).
  pose proof Hfoc as (vis & Hv & H0 & Hi).
  set (st1 := update n (set_expanded (negb (expanded nd))) st).
  assert (tree_select (keys ++ [Key ord_space]) root_id s0 = (st1, Waiting))
    as Hw1.
  { rewrite (tree_select_key _ _ _ _ _ vis Hw Hv).
    destruct (on_key_dispatch vis st) as (_ & _ & _ & _ & _ & _ & -> & _).
    unfold key_space.
    rewrite (focus_truthy st vis n d Hi), (focus_index st vis n d H0 Hi).
    simpl. rewrite (load_loaded st n nd Hn Hl), Hn.
    by rewrite (truthy_nonempty _ Hc). }
  destruct (set_expanded_spec st n d (negb (expanded nd)) Hinv Hfl Hfoc)
    as (_ & vis1 & Hv1 & H01 & Hi1); [eauto|]. fold st1 in Hv1, H01, Hi1.
  assert (heap st1 !! n = Some (set_expanded (negb (expanded nd)) nd))
    as Hn1.
  { change (alter (set_expanded (negb (expanded nd))) n (heap st) !! n
            = Some (set_expanded (negb (expanded nd)) nd)).
    by rewrite list_lookup_alter_eq, Hn. }
  change (keys ++ [Key ord_space; Key ord_space])
    with (keys ++ [Key ord_space] ++ [Key ord_space]).
  rewrite app_assoc, (tree_select_key _ _ _ _ _ vis1 Hw1 Hv1).
  destruct (on_key_dispatch vis1 st1) as (_ & _ & _ & _ & _ & _ & -> & _).
  unfold key_space.
  rewrite (focus_truthy st1 vis1 n d Hi1), (focus_index st1 vis1 n d H01 Hi1).
  simpl. rewrite (load_loaded st1 n _ Hn1 Hl), Hn1. simpl.
  rewrite (truthy_nonempty _ Hc). unfold st1. rewrite update_update.
  rewrite (update_restore _ n st nd Hn); [done|].
  simpl. rewrite negb_involutive. by destruct nd.
Qed.

(** X12.  Down followed by up, away from the last row, and up followed by
    down, away from the first, lead back to the same state. *)
Theorem down_up_round_trip keys (root_id : TreeNode) (s0 : DS) st vis :
  tree_select keys root_id s0 = (st, Waiting) →
  visible_of st = Some vis →
  (cursor st < Z.of_nat (length vis) - 1 →
     tree_select (keys ++ [Key KEY_DOWN; Key KEY_UP]) root_id s0
     = (st, Waiting))
  ∧ (0 < cursor st →
       tree_select (keys ++ [Key KEY_UP; Key KEY_DOWN]) root_id s0
       = (st, Waiting)).
Proof.
  intros Hw Hv.
  destruct (waiting_focused _ _ _ _ Hw)
    as (_ & _ & vis' & n & d & Hv' & H0 & Hi).
  assert (vis' = vis) as -> by congruence.
  pose proof (lookup_lt_Some _ _ _ Hi) as Hlt.
  pose proof (focus_truthy st vis n d Hi) as Ht.
  split; intros Hc.
  - assert (tree_select (keys ++ [Key KEY_DOWN]) root_id s0
            = (with_cursor (cursor st + 1) st, Waiting)) as Hw1.
    { rewrite (tree_select_key _ _ _ _ _ vis Hw Hv). unfold on_key. simpl.
      rewrite Ht. simpl. by rewrite Z.min_r by lia. }
    change (keys ++ [Key KEY_DOWN; Key KEY_UP])
      with (keys ++ [Key KEY_DOWN] ++ [Key KEY_UP]).
    rewrite app_assoc, (tree_select_key _ _ _ _ _ vis Hw1 Hv).
    unfold on_key. simpl. rewrite Z.max_r by lia.
    replace (cursor st + 1 - 1) with (cursor st) by lia. by destruct st.
  - assert (tree_select (keys ++ [Key KEY_UP]) root_id s0
            = (with_cursor (cursor st - 1) st, Waiting)) as Hw1.
    { rewrite (tree_select_key _ _ _ _ _ vis Hw Hv). unfold on_key. simpl.
      by rewrite Z.max_r by lia. }
    change (keys ++ [Key KEY_UP; Key KEY_DOWN])
      with (keys ++ [Key KEY_UP] ++ [Key KEY_DOWN]).
    rewrite app_assoc, (tree_select_key _ _ _ _ _ vis Hw1 Hv).
    unfold on_key. simpl. rewrite Ht. simpl. rewrite Z.min_r by lia.
    replace (cursor st - 1 + 1) with (cursor st) by lia. by destruct st.
Qed.

(** ** The shape of the visible list *)

Lemma concat_lookup_offset {A} (R : addr → list A → Prop)
    (cs : list addr) (rows : list (list A)) (i : nat) (x : A) :
  Forall2 R cs rows → concat rows !! i = Some x →
  ∃ c r off j,
    c ∈ cs ∧ R c r ∧ r !! j = Some x ∧ i = (off + j)%nat
    ∧ ∀ k y, r !! k = Some y → concat rows !! (off + k)%nat = Some y.
Proof.
  intros H. revert i. induction H as [|c r cs rows Hcr _ IH]; intros i;
    simpl; [done|].
  intros Hi. destruct (decide (i < length r)%nat) as [Hlt|Hge].
  - rewrite lookup_app_l in Hi by done.
    exists c, r, 0%nat, i. split_and!; [left|done..|].
    intros k y Hk. simpl. by apply lookup_app_l_Some.
  - rewrite lookup_app_r in Hi by lia.
    destruct (IH _ Hi) as (c' & r' & off & j & ? & ? & ? & Heq & Hsub).
    exists c', r', (length r + off)%nat, j.
    split_and!; [by right|done|done|lia|].
    intros k y Hk. rewrite lookup_app_r by lia.
    replace (length r + off + k - length r)%nat with (off + k)%nat by lia.
    by apply Hsub.
Qed.

Lemma preorder_parent_row fuel h a d vis :
  preorder fuel h a d = Some vis →
  ∀ i x dx, vis !! i = Some (x, dx) →
    (i = 0%nat ∧ x = a ∧ dx = d)
    ∨ ∃ j p dp ndp,
        (j < i)%nat ∧ vis !! j = Some (p, dp) ∧ dx = S dp
        ∧ h !! p = Some ndp ∧ expanded ndp = true ∧ x ∈ children ndp.
Proof.
  revert fuel a d vis.
  apply (preorder_rows_ind h (λ a d vis, ∀ i x dx, vis !! i = Some (x, dx) →
    (i = 0%nat ∧ x = a ∧ dx = d)
    ∨ ∃ j p dp ndp,
        (j < i)%nat ∧ vis !! j = Some (p, dp) ∧ dx = S dp
        ∧ h !! p = Some ndp ∧ expanded ndp = true ∧ x ∈ children ndp)).
  - intros a d nd Ha He [|i] x dx Hi; simpl in Hi; [|done].
    left. by simplify_eq.
  - intros f a d nd rows Ha He Hrows [|i] x dx Hi; simpl in Hi.
    { left. by simplify_eq. }
    right.
    destruct (concat_lookup_offset _ _ _ _ _ Hrows Hi)
      as (c & r & off & j & Hc & [_ Hr] & Hj & -> & Hsub).
    destruct (Hr _ _ _ Hj)
      as [(-> & -> & ->)|(j' & p & dp & ndp & Hlt & Hp & ? & ? & ? & ?)].
    + exists 0%nat, a, d, nd. split_and!; [lia|done..].
    + exists (S (off + j')), p, dp, ndp.
      split_and!; [lia| |done..]. simpl. by apply Hsub.
Qed.

(** X13.  In every state of a session no node is shown on two rows. *)
Theorem no_node_shown_twice keys (root_id : TreeNode) (s0 : DS) :
  ∃ vis,
    visible_of (tree_select keys root_id s0).1 = Some vis ∧ NoDup vis.*1.
Proof.
  rewrite tree_select_eq. simpl.
  destruct (ui_post keys root_id s0 [ExitAlt]) as (_ & Hinv & _).
  destruct (inv_cursor _ Hinv) as (vis & Hv & _). exists vis.
  split; [done|]. rewrite visible_of_eq in Hv.
  by eapply preorder_NoDup; [apply Hinv|].
Qed.

(** X14.  In every state of a session, row 0 shows the root at depth 0, and
    every other row shows a node whose parent is expanded and is shown on an
    earlier row, one level less deep. *)
Theorem rows_follow_their_parents keys (root_id : TreeNode) (s0 : DS) :
  let st := (tree_select keys root_id s0).1 in
  ∃ vis,
    visible_of st = Some vis
    ∧ vis !! 0%nat = Some (root st, 0%nat)
    ∧ ∀ i x dx, vis !! S i = Some (x, dx) →
        ∃ j p dp nd ndp,
          (j ≤ i)%nat ∧ vis !! j = Some (p, dp) ∧ dx = S dp
          ∧ heap st !! x = Some nd ∧ parent nd = Some p
          ∧ heap st !! p = Some ndp ∧ expanded ndp = true.
Proof.
  intros st. unfold st. rewrite tree_select_eq. simpl.
  destruct (ui_post keys root_id s0 [ExitAlt]) as (_ & Hinv & _).
  destruct (inv_cursor _ Hinv) as (vis & Hv & _). exists vis.
  split; [done|]. rewrite visible_of_eq in Hv. split.
  - by apply preorder_head in Hv as [rest ->].
  - intros i x dx Hi.
    destruct (preorder_parent_row _ _ _ _ _ Hv _ _ _ Hi)
      as [(? & _)|(j & p & dp & ndp & Hlt & Hp & -> & Hndp & He & Hc)];
      [done|].
    destruct (shape_children _ (inv_shape _ Hinv) p ndp x Hndp Hc)
      as (_ & nd & Hnd & Hpar).
    exists j, p, dp, nd, ndp. split_and!; [lia|done..].
Qed.

(** ** Where a selection comes from *)

Lemma iteration_break (k : input) st st' (v : TreeNode) :
  inv st → fetched_loaded st →
  iteration k st = (st', Break (Some v)) →
  ∃ n d nd, focused st' n d ∧ heap st' !! n = Some nd ∧ id nd = v.
Proof.
  intros Hinv Hfl.
  destruct (cursor_ok_focused st (inv_cursor st Hinv))
    as (n & d & vis & Hv & H0 & Hi).
  pose proof (focus_focused st vis n d Hv H0 Hi) as Hfoc.
  rewrite (iteration_focus st vis n d Hv H0 Hi).
  destruct k as [ch|]; [|done].
  destruct (load_spec st n d Hinv Hfl Hfoc) as (_ & Hfoc1 & Hnb & _).
  unfold on_key, key_right, key_left, key_enter, key_space, key_s.
  rewrite (focus_truthy st vis n d Hi), (focus_index st vis n d H0 Hi).
  simpl. destruct (load n st) as [st1 o1]. simpl in Hfoc1, Hnb.
  intros Hk. exists n, d.
  repeat case_match; simplify_eq; try (by (exfalso; eapply Hnb)); eauto.
Qed.

Lemma loop_break keys st st' (v : TreeNode) :
  inv st → fetched_loaded st →
  loop keys st = (st', Break (Some v)) →
  ∃ n d nd, focused st' n d ∧ heap st' !! n = Some nd ∧ id nd = v.
Proof.
  revert st. induction keys as [|k keys IH]; intros st Hinv Hfl; simpl;
    [done|].
  pose proof (iteration_post st k Hinv Hfl) as (_ & Hinv1 & Hfl1).
  destruct (iteration k st) as [st1 o] eqn:Hk. destruct o; try done.
  - apply IH; auto.
  - intros [= <- ->]. exact (iteration_break k st st1 v Hinv Hfl Hk).
Qed.

(** X15.  A call that returns a selection returns the identifier of the node
    the cursor is on when the session ends: nothing else can be selected. *)
Theorem selection_is_current_node keys (root_id : TreeNode) (s0 : DS) st
    (v : TreeNode) :
  tree_select keys root_id s0 = (st, Returned (Some v)) →
  ∃ n d nd, focused st n d ∧ heap st !! n = Some nd ∧ id nd = v.
Proof.
  rewrite tree_select_eq. unfold _ui.
  pose proof (build_root_post root_id s0 (_enter_alt_screen [ExitAlt]))
    as (_ & Hinv & Hfl).
  assert (∀ sel, (build_root root_id s0 (_enter_alt_screen [ExitAlt])).2
                 ≠ Break sel) as Hnb.
  { intros sel. rewrite build_root_eq.
    by destruct (get_children root_id s0) as [[kids|[|]] s1]. }
  destruct (build_root _ _ _) as [st0 o0]. simpl in Hinv, Hfl, Hnb.
  destruct o0 as [|sel| |]; simpl;
    [|by destruct (Hnb sel)|by destruct e|done].
  specialize (Hfl eq_refl).
  destruct (loop keys st0) as [st' o] eqn:Hl. simpl.
  destruct o as [|[v'|]|[|]|]; simpl; try done.
  intros [= -> ->]. by eapply loop_break.
Qed.

(** ** The loop body as a sequence of primitive changes *)

Lemma load_prims n st : rtc prim st (load n st).1.
Proof.
  unfold load. destruct (heap st !! n) as [nd|] eqn:Hn; [|done].
  destruct (loaded nd) eqn:Hl; [done|].
  destruct (get_children (id nd) (ds st)) as [[kids|e] s1]; simpl.
  - rewrite alloc_children_eq. simpl.
    eapply rtc_l; [apply (prim_fetch n s1)|]. apply rtc_once.
    by apply (prim_attach n kids (with_fetch n s1 st) nd).
  - apply rtc_once, prim_fetch.
Qed.

Lemma on_key_prims (ch : Z) vis st : rtc prim st (on_key ch vis st).1.
Proof.
  unfold on_key, key_right, key_left, key_enter, key_space, key_s.
  repeat case_match; simplify_eq; simpl;
    repeat match goal with
           | H : load ?n ?st = _ |- _ =>
               let H' := fresh "Hload" in
               pose proof (load_prims n st) as H'; rewrite H in H'; clear H
           end;
    first [ done
          | apply rtc_once; constructor
          | eapply rtc_r; [eassumption|constructor]
          | assumption ].
Qed.

Lemma iteration_prims (k : input) st : rtc prim st (iteration k st).1.
Proof.
  unfold iteration. destruct (visible_of st) as [vis|]; [|done]. simpl.
  assert (rtc prim st (with_cursor (clamp (cursor st) vis) st)) as Hc
    by apply rtc_once, prim_cursor.
  destruct (footer vis _); try exact Hc.
  destruct k as [ch|]; [|exact Hc].
  etrans; [exact Hc|apply on_key_prims].
Qed.

Lemma loop_prims keys st : rtc prim st (loop keys st).1.
Proof.
  revert st. induction keys as [|k keys IH]; intros st; simpl; [done|].
  pose proof (iteration_prims k st) as Hk.
  destruct (iteration k st) as [st1 o]. destruct o; try exact Hk.
  etrans; [exact Hk|apply IH].
Qed.

Lemma persists_refl st : persists st st.
Proof. intros a nd Ha. exists nd. by split_and!. Qed.

Lemma persists_trans st1 st2 st3 :
  persists st1 st2 → persists st2 st3 → persists st1 st3.
Proof.
  intros H12 H23 a nd Ha.
  destruct (H12 a nd Ha) as (nd2 & Ha2 & ? & ? & ? & Hl2).
  destruct (H23 a nd2 Ha2) as (nd3 & Ha3 & ? & ? & ? & Hl3).
  exists nd3. split_and!; [done|congruence..|].
  intros Hl. destruct (Hl2 Hl) as [Hl' Hc']. destruct (Hl3 Hl') as [? ?].
  split; congruence.
Qed.

Lemma prim_persists st st' : prim st st' → persists st st'.
Proof.
  intros [c0 st0|n b st0|n s st0|n kids st0 nd0 Hn0 Hl0];
    try exact (persists_refl st0).
  - intros a nd Ha.
    destruct (lookup_alter_keeps (set_expanded b) n (heap st0) a nd Ha)
      as (nd' & Ha' & Heq).
    exists nd'. split; [exact Ha'|]. by destruct Heq as [-> | ->].
  - intros a nd Ha.
    assert ((heap st0 ++ ((λ cid, new_Node cid (Some n)) <$> kids)) !! a
            = Some nd) as Ha1 by by apply lookup_app_l_Some.
    destruct (lookup_alter_keeps
                (set_children (seq (length (heap st0)) (length kids))) n
                _ a nd Ha1) as (nd1 & Ha2 & Heq1).
    destruct (lookup_alter_keeps (set_loaded true) n _ a nd1 Ha2)
      as (nd2 & Ha3 & Heq2).
    exists nd2. split; [exact Ha3|].
    destruct (decide (a = n)) as [->|Hne].
    + assert (nd = nd0) as -> by congruence.
      destruct Heq2 as [-> | ->], Heq1 as [-> | ->]; simpl;
        split_and!; try done; congruence.
    + assert (nd2 = nd) as ->; [|by split_and!].
      revert Ha3. simpl. rewrite !list_lookup_alter_ne by done.
      rewrite Ha1. congruence.
Qed.

Lemma prims_persist st st' : rtc prim st st' → persists st st'.
Proof.
  induction 1 as [|st1 st2 st3 H12 _ IH]; [apply persists_refl|].
  eapply persists_trans; [by apply prim_persists|exact IH].
Qed.

(** X16.  Objects are never dropped or replaced during a session: whatever
    is typed later, a node object keeps its identifier, its label and its
    parent, and once it is loaded it stays loaded with the same children
    (there is no refresh). *)
Theorem objects_persist keys keys' (root_id : TreeNode) (s0 : DS) :
  persists (tree_select keys root_id s0).1
    (tree_select (keys ++ keys') root_id s0).1.
Proof.
  rewrite !tree_select_eq, ui_app. simpl.
  destruct (_ui keys root_id s0 [ExitAlt]) as [st o].
  destruct o; try apply persists_refl.
  simpl. apply prims_persist, loop_prims.
Qed.

Lemma prim_labels st st' :
  prim st st' →
  Forall (λ nd, label nd = name (id nd)) (heap st) →
  Forall (λ nd, label nd = name (id nd)) (heap st').
Proof.
  intros [c0 st0|n b st0|n s st0|n kids st0 nd0 Hn0 Hl0]; try done.
  - intros HF. simpl. by apply Forall_alter.
  - intros HF. simpl. do 2 (apply Forall_alter; [|done]).
    apply Forall_app. split; [done|]. by apply Forall_fmap, Forall_true.
Qed.

(** X17.  The label of every node object is, at every moment of a session,
    the display name of its identifier: it is set when the object is made
    and never assigned again. *)
Theorem labels_are_names keys (root_id : TreeNode) (s0 : DS) :
  Forall (λ nd, label nd = name (id nd))
    (heap (tree_select keys root_id s0).1).
Proof.
  rewrite tree_select_eq. simpl. unfold _ui.
  assert (Forall (λ nd, label nd = name (id nd))
            (heap (build_root root_id s0 (_enter_alt_screen [ExitAlt])).1))
    as H0.
  { rewrite build_root_eq.
    destruct (get_children root_id s0) as [[kids|[|]] s1]; simpl;
      repeat constructor; by apply Forall_fmap, Forall_true. }
  destruct (build_root _ _ _) as [st0 o0]. simpl in H0.
  destruct o0; try exact H0.
  pose proof (loop_prims keys st0) as Hp.
  destruct (loop keys st0) as [st o]. simpl in Hp |- *.
  clear -Hp H0. induction Hp as [|st1 st2 st3 H12 _ IH]; [done|].
  apply IH. by eapply prim_labels.
Qed.

(** ** Faults of the data source *)

Lemma handler_fetch_raises (ch : Z) vis st n d nd (e : exn) (s1 : DS) :
  0 ≤ cursor st → vis !! Z.to_nat (cursor st) = Some (n, d) →
  heap st !! n = Some nd → loaded nd = false →
  get_children (id nd) (ds st) = (Raise e, s1) →
  ch ∈ [KEY_RIGHT; ord_l; 10; 13; ord_space] →
  on_key ch vis st = (with_fetch n s1 st, Raised e).
Proof.
  intros H0 Hi Hn Hl Hg Hch.
  destruct (on_key_dispatch vis st) as (E1 & E2 & _ & _ & E3 & E4 & E5 & _).
  repeat (apply elem_of_cons in Hch as [->|Hch]);
    [rewrite E1|rewrite E2|rewrite E3|rewrite E4|rewrite E5|
     by apply elem_of_nil in Hch];
    unfold key_right, key_enter, key_space;
    rewrite (focus_truthy st vis n d Hi), (focus_index st vis n d H0 Hi);
    simpl; by rewrite (load_fetch_fail st n nd e s1 Hn Hl Hg).
Qed.

(** X18.  An interrupt raised while the data source is being read ends the
    call with no selection, like an interrupt during a key read: at root
    construction the handler for fetch failures lets it through, so the
    session never starts and the keys are not read; in the expand, Enter and
    Space handlers the node is left not loaded. *)
Theorem interrupt_during_fetch_returns_none :
  (∀ keys (root_id : TreeNode) (s0 s1 : DS),
     get_children root_id s0 = (Raise KeyboardInterrupt, s1) →
     (tree_select keys root_id s0).2 = Returned None
     ∧ heap (tree_select keys root_id s0).1 = [new_Node root_id None])
  ∧ (∀ keys (root_id : TreeNode) (s0 s1 : DS) st n d nd (ch : Z),
       tree_select keys root_id s0 = (st, Waiting) →
       focused st n d → heap st !! n = Some nd → loaded nd = false →
       get_children (id nd) (ds st) = (Raise KeyboardInterrupt, s1) →
       ch ∈ [KEY_RIGHT; ord_l; 10; 13; ord_space] →
       tree_select (keys ++ [Key ch]) root_id s0
       = (with_fetch n s1 st, Returned None)).
Proof.
  split.
  - intros keys root_id s0 s1 Hg. rewrite tree_select_eq. unfold _ui.
    by rewrite build_root_eq, Hg.
  - intros keys root_id s0 s1 st n d nd ch Hw (vis & Hv & H0 & Hi) Hn Hl Hg
      Hch.
    rewrite (tree_select_key _ _ _ _ _ vis Hw Hv).
    by rewrite (handler_fetch_raises ch vis st n d nd _ s1 H0 Hi Hn Hl Hg Hch).
Qed.

(** X19.  When the fetch for the root fails, the browser starts with the
    root as its only row; expand, up and down change nothing, and Enter or
    [s] select the root, none of them calling the data source again. *)
Theorem root_fetch_failure_gives_lone_root (root_id : TreeNode) (s0 s1 : DS) :
  get_children root_id s0 = (Raise Exception, s1) →
  ∃ st,
    tree_select [] root_id s0 = (st, Waiting)
    ∧ visible_of st = Some [(0%nat, 0%nat)]
    ∧ ds st = s1 ∧ fetched st = [0%nat]
    ∧ (∀ ch, ch ∈ [KEY_RIGHT; ord_l; KEY_UP; ord_k; KEY_DOWN; ord_j] →
         tree_select [Key ch] root_id s0 = (st, Waiting))
    ∧ (∀ ch, ch ∈ [10; 13; ord_s] →
         tree_select [Key ch] root_id s0 = (st, Returned (Some root_id))).
Proof.
  intros Hg. eexists. split_and!.
  - unfold tree_select, _ui. rewrite build_root_eq, Hg. reflexivity.
  - reflexivity.
  - reflexivity.
  - reflexivity.
  - intros ch Hch. unfold tree_select, _ui. rewrite build_root_eq, Hg.
    repeat (apply elem_of_cons in Hch as [->|Hch]);
      [reflexivity..|by apply elem_of_nil in Hch].
  - intros ch Hch. unfold tree_select, _ui. rewrite build_root_eq, Hg.
    repeat (apply elem_of_cons in Hch as [->|Hch]);
      [reflexivity..|by apply elem_of_nil in Hch].
Qed.

End Session.

(** * Drawing *)

Section Rows.
Context {TreeNode DS : Type} `{!DataSource TreeNode DS, !LeafCounts TreeNode}.
Implicit Types (h : list (_Node TreeNode)) (vis : list (addr * nat)).
Implicit Types (calls : list draw) (st : state TreeNode DS).

Lemma draw_rows_spec (max_y max_x : Z) h (cursor : Z) vis :
  ∀ (i : nat) calls,
    draw_rows max_y max_x h cursor i vis = Some calls →
    length calls
    = Z.to_nat (Z.min (Z.of_nat (length vis))
                  (Z.max 0 (max_y - 4 - Z.of_nat i)))
    ∧ ∀ (k : nat) c, calls !! k = Some c →
        draw_row c = 2 + Z.of_nat (i + k)
        ∧ (draw_attr c = A_REVERSE ↔ Z.of_nat (i + k) = cursor)
        ∧ ∃ node depth nd,
            vis !! k = Some (node, depth) ∧ h !! node = Some nd
            ∧ draw_text c = row_line nd depth.
Proof.
  induction vis as [|[node depth] vis IH]; intros i calls; simpl.
  - intros [= <-]. split; [simpl; lia|]. intros k c Hk. done.
  - destruct (2 + Z.of_nat i >=? max_y - 2) eqn:Hrow.
    + intros [= <-]. split; [simpl; lia|]. intros k c Hk. done.
    + destruct (h !! node) as [nd|] eqn:Hnd; simpl; [|done].
      destruct (draw_rows max_y max_x h cursor (S i) vis) as [calls'|] eqn:Hd;
        simpl; [|done].
      intros [= <-]. destruct (IH _ _ Hd) as [Hlen Hcalls]. split.
      * simpl. rewrite Hlen. lia.
      * intros [|k] c Hk; simpl in Hk.
        -- simplify_eq. simpl. split_and!; [lia| |by exists node, depth, nd].
           rewrite Nat.add_0_r. destruct (Z.of_nat i =? cursor) eqn:Hc.
           ++ split; [lia|done].
           ++ split; [done|lia].
        -- destruct (Hcalls k c Hk) as (Hr & Ha & Ht).
           replace (i + S k)%nat with (S i + k)%nat by lia. done.
Qed.

Lemma draw_rows_is_Some (max_y max_x : Z) h (cursor : Z) vis (i : nat) :
  (∀ x, x ∈ vis.*1 → is_Some (h !! x)) →
  is_Some (draw_rows max_y max_x h cursor i vis).
Proof.
  revert i. induction vis as [|[node depth] vis IH]; intros i Hall; simpl;
    [eauto|].
  destruct (2 + Z.of_nat i >=? max_y - 2); [eauto|].
  destruct (Hall node) as [nd ->]; [left|]. simpl.
  destruct (IH (S i)) as [calls ->]; [|simpl; eauto].
  intros x Hx. apply Hall. by right.
Qed.

(** X20.  The row loop draws the first [max_y - 4] rows of the visible list
    (all of them if there are fewer, none on a screen of four lines or
    less), in order, one per screen line from line 2 on, and so never on the
    header lines 0 and 1 nor on the footer lines [max_y - 2] and
    [max_y - 1]. *)
Theorem rows_drawn_between_header_and_footer (max_y max_x : Z) h
    (cursor : Z) vis calls :
  draw_rows max_y max_x h cursor 0 vis = Some calls →
  length calls
  = Z.to_nat (Z.min (Z.of_nat (length vis)) (Z.max 0 (max_y - 4)))
  ∧ ∀ (k : nat) c, calls !! k = Some c →
      draw_row c = 2 + Z.of_nat k
      ∧ 2 ≤ draw_row c < max_y - 2
      ∧ ∃ node depth nd,
          vis !! k = Some (node, depth) ∧ h !! node = Some nd
          ∧ draw_text c = row_line nd depth.
Proof.
  intros Hd. destruct (draw_rows_spec _ _ _ _ _ _ _ Hd) as [Hlen Hcalls].
  split; [rewrite Hlen; f_equal; lia|].
  intros k c Hk. destruct (Hcalls k c Hk) as (Hr & _ & Ht). simpl in Hr.
  split_and!; [done| | |done].
  - lia.
  - apply lookup_lt_Some in Hk. lia.
Qed.

End Rows.

(** * The recursion limit *)

(** ** A single long branch *)






(** ** Walking down a branch *)

Section Descent.
Context {TreeNode DS : Type} `{!DataSource TreeNode DS}.
Implicit Types (st : state TreeNode DS) (vis : list (addr * nat)).


End Descent.


(** ** The session under a budget of nested calls *)

Section Limit.
Context {TreeNode DS : Type} `{!DataSource TreeNode DS}.
Variable frames : nat.
Implicit Types (st : state TreeNode DS) (vis : list (addr * nat)).

Lemma build_visible_budget st vis :
  is_Some (visible_of st) →
  _build_visible frames (heap st) (root st) = Some vis →
  visible_of st = Some vis.
Proof.
  intros [v Hv] Hb. rewrite Hv. f_equal.
  unfold visible_of in Hv. rewrite build_visible_preorder in Hv, Hb.
  eapply preorder_fuel_irrelevant; eauto.
Qed.

Lemma key_left_within_eq vis pv st :
  _build_visible frames (heap st) (root st) = Some pv →
  visible_of st = Some pv →
  key_left_within frames vis st = key_left vis st.
Proof.
  intros Hb Hv. unfold key_left_within, key_left, build_visible_within.
  by rewrite Hb, Hv.
Qed.

Lemma on_key_within_eq ch vis pv st :
  _build_visible frames (heap st) (root st) = Some pv →
  visible_of st = Some pv →
  on_key_within frames ch vis st = on_key ch vis st.
Proof.
  intros Hb Hv. unfold on_key_within, on_key.
  by rewrite (key_left_within_eq vis pv st Hb Hv).
Qed.

(** While the budget suffices, a pass is the pass of the session above. *)
Lemma iteration_within_eq k st vis :
  is_Some (visible_of st) →
  _build_visible frames (heap st) (root st) = Some vis →
  iteration_within frames k st = iteration k st.
Proof.
  intros Hs Hb. pose proof (build_visible_budget st vis Hs Hb) as Hv.
  unfold iteration_within, iteration, build_visible_within.
  rewrite Hb, Hv. destruct (footer _ _); try done.
  destruct k as [ch|]; [|done].
  by apply (on_key_within_eq ch vis vis).
Qed.

(** When it does not, the pass raises at line 110 and changes nothing. *)
Lemma iteration_within_raise k st :
  _build_visible frames (heap st) (root st) = None →
  iteration_within frames k st = (st, Raised Exception).
Proof.
  intros Hb. unfold iteration_within, build_visible_within. by rewrite Hb.
Qed.

(** A loop under the budget runs as the loop above, up to the first pass in
    which the budget does not suffice. *)
Lemma loop_within_cases keys st :
  inv st → fetched_loaded st →
  loop_within frames keys st = loop keys st
  ∨ ∃ keys1 keys2 st1,
      keys = keys1 ++ keys2 ∧ keys2 ≠ []
      ∧ loop keys1 st = (st1, Continue)
      ∧ _build_visible frames (heap st1) (root st1) = None
      ∧ loop_within frames keys st = (st1, Raised Exception).
Proof.
  revert st. induction keys as [|k keys IH]; intros st Hinv Hfl; [by left|].
  destruct (_build_visible frames (heap st) (root st)) as [vis|] eqn:Hb.
  - assert (is_Some (visible_of st)) as Hs.
    { destruct (inv_cursor st Hinv) as (v & Hv & _). eauto. }
    simpl. rewrite (iteration_within_eq k st vis Hs Hb).
    pose proof (iteration_post st k Hinv Hfl) as Hp.
    destruct (iteration k st) as [st1 o] eqn:Hit.
    destruct Hp as (_ & Hinv1 & Hfl1). simpl in Hinv1, Hfl1.
    destruct o; try by left.
    destruct (IH st1 Hinv1 (Hfl1 eq_refl))
      as [Heq|(keys1 & keys2 & st2 & -> & Hne & Hl & Hnone & Hw)]; [by left|].
    right. exists (k :: keys1), keys2, st2. split_and!; try done.
    simpl. by rewrite Hit.
  - right. exists [], (k :: keys), st. split_and!; try done.
    simpl. by rewrite (iteration_within_raise k st Hb).
Qed.

Lemma ui_within_cases keys (root_id : TreeNode) (s0 : DS) scr :
  _ui_within frames keys root_id s0 scr = _ui keys root_id s0 scr
  ∨ ∃ keys1 keys2 st1,
      keys = keys1 ++ keys2 ∧ keys2 ≠ []
      ∧ _ui keys1 root_id s0 scr = (st1, Continue)
      ∧ _build_visible frames (heap st1) (root st1) = None
      ∧ _ui_within frames keys root_id s0 scr = (st1, Raised Exception).
Proof.
  unfold _ui_within, _ui.
  pose proof (build_root_post root_id s0 (_enter_alt_screen scr)) as Hp.
  destruct (build_root root_id s0 (_enter_alt_screen scr)) as [st o].
  destruct Hp as (_ & Hinv & Hfl). simpl in Hinv, Hfl.
  destruct o; try by left.
  destruct (loop_within_cases keys st Hinv (Hfl eq_refl))
    as [Heq|(keys1 & keys2 & st1 & ? & ? & ? & ? & ?)]; [by left|].
  right. by exists keys1, keys2, st1.
Qed.

(** Every state of a session under the budget is a state of the session
    above, so what holds in all of those holds in it. *)
Lemma ui_within_inv keys (root_id : TreeNode) (s0 : DS) scr :
  (_ui_within frames keys root_id s0 scr).2 ≠ Stuck
  ∧ inv (_ui_within frames keys root_id s0 scr).1.
Proof.
  destruct (ui_within_cases keys root_id s0 scr)
    as [->|(keys1 & keys2 & st1 & _ & _ & Hu & _ & ->)].
  - destruct (ui_post keys root_id s0 scr) as (? & ? & _). done.
  - split; [done|]. simpl.
    pose proof (ui_post keys1 root_id s0 scr) as (_ & Hinv & _).
    by rewrite Hu in Hinv.
Qed.



Lemma tree_select_within_eq keys (root_id : TreeNode) (s0 : DS) :
  tree_select_within frames keys root_id s0
  = ((_ui_within frames keys root_id s0 [ExitAlt]).1,
     answer (_ui_within frames keys root_id s0 [ExitAlt]).2).
Proof.
  unfold tree_select_within, _exit_alt_screen. simpl.
  destruct (_ui_within frames keys root_id s0 [ExitAlt]) as [st o].
  by destruct o as [| |[|]|].
Qed.




End Limit.



(** ** The rows of a session state *)

Section Session_rows.
Context {TreeNode DS : Type} `{!DataSource TreeNode DS, !LeafCounts TreeNode}.
Implicit Types (vis : list (addr * nat)) (calls : list draw).

(** X21.  In every state of a session, when [_build_visible] has returned,
    the row loop runs through, whatever the size of the screen.  It
    highlights at most one row, the one of the cursor; when the cursor is at
    row [max_y - 4] or beyond, the list is not scrolled and no drawn row is
    highlighted. *)
Theorem cursor_row_highlighted_if_on_screen (frames : nat) keys
    (root_id : TreeNode) (s0 : DS) (max_y max_x : Z) vis :
  let st := (tree_select_within frames keys root_id s0).1 in
  _build_visible frames (heap st) (root st) = Some vis →
  ∃ calls,
    draw_rows max_y max_x (heap st) (clamp (cursor st) vis) 0 vis = Some calls
    ∧ (∀ (k : nat) c, calls !! k = Some c →
         draw_attr c = A_REVERSE ↔ Z.of_nat k = cursor st)
    ∧ ((∃ c, c ∈ calls ∧ draw_attr c = A_REVERSE) ↔ cursor st < max_y - 4).
Proof.
  intros st. unfold st. rewrite tree_select_within_eq. simpl.
  destruct (ui_within_inv frames keys root_id s0 [ExitAlt]) as [_ Hinv].
  set (st' := (_ui_within frames keys root_id s0 [ExitAlt]).1) in *.
  intros Hb. destruct (inv_cursor _ Hinv) as (v & Hv & Hc).
  pose proof (build_visible_budget frames st' vis ltac:(by rewrite Hv) Hb)
    as Hv2.
  rewrite Hv in Hv2. injection Hv2 as ->.
  destruct (draw_rows_is_Some max_y max_x (heap st') (cursor st') vis 0)
    as [calls Hd].
  { rewrite visible_of_eq in Hv. by eapply preorder_lookup. }
  destruct (draw_rows_spec _ _ _ _ _ _ _ Hd) as [Hlen Hcalls].
  exists calls. rewrite (clamp_id _ _ Hc). split_and!; [done| |].
  - intros k c Hk. by destruct (Hcalls k c Hk) as (_ & Ha & _).
  - split.
    + intros (c & [k Hk]%list_elem_of_lookup & Hrev).
      destruct (Hcalls k c Hk) as (_ & Ha & _). apply Ha in Hrev.
      apply lookup_lt_Some in Hk. simpl in Hrev. lia.
    + intros Hlt.
      destruct (lookup_lt_is_Some_2 calls (Z.to_nat (cursor st')))
        as [c Hk]; [lia|].
      exists c. split; [by eapply list_elem_of_lookup_2|].
      destruct (Hcalls _ c Hk) as (_ & Ha & _). apply Ha. simpl. lia.
Qed.

End Session_rows.

(** * The terminal *)

(** C2.  When a call of [tree_select] has ended, by a selection, a
    cancellation, an interrupt or an error, the alternate screen is no
    longer active exactly when the terminfo entry has [rmcup], which
    [endwin] sends; the program's own exit step has run before the session
    and does nothing for this.  On a terminal without the capabilities that
    honours the raw sequences, the session enters the alternate screen by
    the raw sequence of line 73 and every ended call leaves it active: so on
    the example source after [s], after [q] and after an interrupt. *)
Theorem alt_screen_left_active_without_rmcup :
  (∀ {TreeNode DS : Type} `{!DataSource TreeNode DS} (frames : nat)
     (t : terminal) (setup : bool) keys (root_id : TreeNode) (s0 : DS),
     alt_screen_active t (tree_select_out frames t setup keys root_id s0)
     = match (tree_select_within frames keys root_id s0).2 with
       | Waiting | Undefined => has_smcup t || dec1049 t
       | Returned _ | Propagated _ =>
           negb (has_rmcup t) && (has_smcup t || dec1049 t)
       end)
  ∧ (∀ setup,
       (tree_select_within recursion_limit [Key ord_s] 0%nat tt).2
       = Returned (Some 0%nat)
       ∧ alt_screen_active plain_terminal
           (tree_select_out recursion_limit plain_terminal setup
              [Key ord_s] 0%nat tt) = true
       ∧ (tree_select_within recursion_limit [Key ord_q] 0%nat tt).2
         = Returned None
       ∧ alt_screen_active plain_terminal
           (tree_select_out recursion_limit plain_terminal setup
              [Key ord_q] 0%nat tt) = true
       ∧ (tree_select_within recursion_limit [Interrupt] 0%nat tt).2
         = Returned None
       ∧ alt_screen_active plain_terminal
           (tree_select_out recursion_limit plain_terminal setup
              [Interrupt] 0%nat tt) = true).
Proof.
  split.
  - intros TreeNode DS ? frames [sm rm dec] setup keys root_id s0.
    unfold tree_select_out, alt_screen_active, exit_alt_screen_out,
      enter_alt_screen_out, initscr_out, endwin_out, tigetstr. simpl.
    destruct (tree_select_within frames keys root_id s0).2;
      by destruct setup, sm, rm, dec.
  - intros setup. by destruct setup; vm_compute.
Qed.

(** * The further properties on the example source *)

Lemma cancel_returns_none_witness :
  tree_select ([Key KEY_DOWN; Key KEY_DOWN] ++ [Key 27]) 0%nat tt
  = (demo_waiting, Returned None).
Proof.
  apply (@cancel_returns_none nat unit demo).
  - vm_compute. reflexivity.
  - right. reflexivity.
Defined.

Lemma interrupt_returns_none_witness :
  tree_select ([Key KEY_DOWN; Key KEY_DOWN] ++ [Interrupt]) 0%nat tt
  = (demo_waiting, Returned None).
Proof.
  apply (@interrupt_returns_none nat unit demo).
  vm_compute. reflexivity.
Defined.

Lemma select_current_witness :
  tree_select ([Key KEY_DOWN; Key KEY_DOWN] ++ [Key ord_s]) 0%nat tt
  = (demo_waiting, Returned (Some 2%nat)).
Proof.
  apply (@select_current nat unit demo [Key KEY_DOWN; Key KEY_DOWN] 0%nat tt
           demo_waiting 2%nat 1%nat
           {| id := 2%nat; label := "C"; parent := Some 0%nat;
              children := []; loaded := false; expanded := false |}).
  - vm_compute. reflexivity.
  - exists [(0, 0); (1, 1); (2, 1); (3, 1)]%nat.
    split_and!; [vm_compute; reflexivity|vm_compute; discriminate|
                 vm_compute; reflexivity].
  - vm_compute. reflexivity.
Defined.

Lemma unbound_key_ignored_witness :
  tree_select ([Key KEY_DOWN; Key KEY_DOWN] ++ [Key (-1)]) 0%nat tt
  = (demo_waiting, Waiting).
Proof.
  apply (@unbound_key_ignored nat unit demo).
  - vm_compute. reflexivity.
  - vm_compute. intros H.
    repeat (apply elem_of_cons in H as [H|H]; [discriminate H|]).
    by apply elem_of_nil in H.
Defined.

Lemma cursor_moves_one_row_witness :
  tree_select ([Key KEY_DOWN; Key KEY_DOWN] ++ [Key ord_j]) 0%nat tt
  = (with_cursor 3 demo_waiting, Waiting)
  ∧ tree_select ([Key KEY_DOWN; Key KEY_DOWN] ++ [Key KEY_UP]) 0%nat tt
    = (with_cursor 1 demo_waiting, Waiting).
Proof.
  destruct (@cursor_moves_one_row nat unit demo [Key KEY_DOWN; Key KEY_DOWN]
              0%nat tt demo_waiting [(0, 0); (1, 1); (2, 1); (3, 1)]%nat
              ord_j) as [Hdown _]; [vm_compute; reflexivity..|].
  destruct (@cursor_moves_one_row nat unit demo [Key KEY_DOWN; Key KEY_DOWN]
              0%nat tt demo_waiting [(0, 0); (1, 1); (2, 1); (3, 1)]%nat
              KEY_UP) as [_ Hup]; [vm_compute; reflexivity..|].
  split.
  - rewrite (Hdown (or_intror eq_refl)). reflexivity.
  - rewrite (Hup (or_introl eq_refl)). reflexivity.
Defined.

Lemma key_changes_only_current_node_witness :
  heap (tree_select ([Key KEY_DOWN; Key KEY_DOWN] ++ [Key KEY_RIGHT])
          0%nat tt).1 !! 1%nat
  = Some {| id := 1%nat; label := "B"; parent := Some 0%nat;
            children := []; loaded := false; expanded := false |}.
Proof.
  apply (@key_changes_only_current_node nat unit demo
           [Key KEY_DOWN; Key KEY_DOWN] (Key KEY_RIGHT) 0%nat tt
           demo_waiting 2%nat 1%nat).
  - vm_compute. reflexivity.
  - exists [(0, 0); (1, 1); (2, 1); (3, 1)]%nat.
    split_and!; [vm_compute; reflexivity|vm_compute; discriminate|
                 vm_compute; reflexivity].
  - discriminate.
  - vm_compute. reflexivity.
Defined.

Lemma space_is_left_or_right_witness :
  tree_select ([Key KEY_DOWN; Key KEY_DOWN] ++ [Key ord_space]) 0%nat tt
  = tree_select ([Key KEY_DOWN; Key KEY_DOWN] ++ [Key KEY_RIGHT]) 0%nat tt.
Proof.
  apply (@space_is_left_or_right nat unit demo [Key KEY_DOWN; Key KEY_DOWN]
           0%nat tt demo_waiting 2%nat 1%nat
           {| id := 2%nat; label := "C"; parent := Some 0%nat;
              children := []; loaded := false; expanded := false |}).
  - vm_compute. reflexivity.
  - exists [(0, 0); (1, 1); (2, 1); (3, 1)]%nat.
    split_and!; [vm_compute; reflexivity|vm_compute; discriminate|
                 vm_compute; reflexivity].
  - vm_compute. reflexivity.
Defined.

Lemma expand_twice_is_expand_once_witness :
  tree_select ([Key KEY_DOWN; Key KEY_DOWN] ++ [Key KEY_RIGHT; Key KEY_RIGHT])
    0%nat tt
  = (demo_expanded, Waiting).
Proof.
  apply (@expand_twice_is_expand_once nat unit demo
           [Key KEY_DOWN; Key KEY_DOWN] 0%nat tt demo_waiting demo_expanded).
  - vm_compute. reflexivity.
  - vm_compute. reflexivity.
Defined.

Lemma expand_collapse_restores_view_witness :
  ∃ st2,
    tree_select ([Key KEY_DOWN; Key KEY_DOWN] ++ [Key KEY_RIGHT; Key KEY_LEFT])
      0%nat tt = (st2, Waiting)
    ∧ visible_of st2 = visible_of demo_waiting
    ∧ cursor st2 = cursor demo_waiting.
Proof.
  destruct (@expand_collapse_restores_view nat unit demo
              [Key KEY_DOWN; Key KEY_DOWN] 0%nat tt demo_waiting
              demo_expanded 2%nat 1%nat
              {| id := 2%nat; label := "C"; parent := Some 0%nat;
                 children := []; loaded := false; expanded := false |}
              {| id := 2%nat; label := "C"; parent := Some 0%nat;
                 children := [4; 5]%nat; loaded := true; expanded := true |})
    as (st2 & H1 & H2 & H3 & _).
  - vm_compute. reflexivity.
  - exists [(0, 0); (1, 1); (2, 1); (3, 1)]%nat.
    split_and!; [vm_compute; reflexivity|vm_compute; discriminate|
                 vm_compute; reflexivity].
  - vm_compute. reflexivity.
  - reflexivity.
  - vm_compute. reflexivity.
  - vm_compute. reflexivity.
  - reflexivity.
  - exists st2. split_and!; [exact H1|exact H2|exact H3].
Defined.

Lemma expand_childless_node_witness :
  ∃ st1,
    tree_select ([Key KEY_DOWN; Key KEY_DOWN; Key KEY_DOWN] ++ [Key KEY_RIGHT])
      0%nat tt = (st1, Waiting)
    ∧ visible_of st1
      = visible_of
          (tree_select [Key KEY_DOWN; Key KEY_DOWN; Key KEY_DOWN] 0%nat tt).1.
Proof.
  destruct (@expand_childless_node nat unit demo
              [Key KEY_DOWN; Key KEY_DOWN; Key KEY_DOWN] 0%nat tt tt
              (@tree_select nat unit demo
                 [Key KEY_DOWN; Key KEY_DOWN; Key KEY_DOWN] 0%nat tt).1
              3%nat 1%nat
              {| id := 3%nat; label := "D"; parent := Some 0%nat;
                 children := []; loaded := false; expanded := false |})
    as (st1 & H1 & H2 & _).
  - vm_compute. reflexivity.
  - exists [(0, 0); (1, 1); (2, 1); (3, 1)]%nat.
    split_and!; [vm_compute; reflexivity|vm_compute; discriminate|
                 vm_compute; reflexivity].
  - vm_compute. reflexivity.
  - reflexivity.
  - vm_compute. reflexivity.
  - exists st1. split; [exact H1|exact H2].
Defined.

Lemma toggle_twice_restores_witness :
  tree_select ([] ++ [Key ord_space; Key ord_space]) 0%nat tt
  = ((tree_select [] 0%nat tt).1, Waiting).
Proof.
  apply (@toggle_twice_restores nat unit demo [] 0%nat tt
           (@tree_select nat unit demo [] 0%nat tt).1 0%nat 0%nat
           {| id := 0%nat; label := "A"; parent := None;
              children := [1; 2; 3]%nat; loaded := true; expanded := true |}).
  - vm_compute. reflexivity.
  - exists [(0, 0); (1, 1); (2, 1); (3, 1)]%nat.
    split_and!; [vm_compute; reflexivity|vm_compute; discriminate|
                 vm_compute; reflexivity].
  - vm_compute. reflexivity.
  - reflexivity.
  - discriminate.
Defined.

Lemma down_up_round_trip_witness :
  tree_select ([Key KEY_DOWN; Key KEY_DOWN] ++ [Key KEY_DOWN; Key KEY_UP])
    0%nat tt = (demo_waiting, Waiting)
  ∧ tree_select ([Key KEY_DOWN; Key KEY_DOWN] ++ [Key KEY_UP; Key KEY_DOWN])
      0%nat tt = (demo_waiting, Waiting).
Proof.
  destruct (@down_up_round_trip nat unit demo [Key KEY_DOWN; Key KEY_DOWN]
              0%nat tt demo_waiting [(0, 0); (1, 1); (2, 1); (3, 1)]%nat)
    as [Hdu Hud]; [vm_compute; reflexivity..|].
  split; [apply Hdu|apply Hud]; vm_compute; reflexivity.
Defined.

Lemma selection_is_current_node_witness :
  ∃ n d nd,
    focused demo_waiting n d ∧ heap demo_waiting !! n = Some nd
    ∧ id nd = 2%nat.
Proof.
  apply (@selection_is_current_node nat unit demo
           [Key KEY_DOWN; Key KEY_DOWN; Key ord_s] 0%nat tt).
  vm_compute. reflexivity.
Defined.

Lemma interrupt_during_fetch_returns_none_witness :
  (@tree_select nat unit demo_interrupting [Key KEY_DOWN] 1%nat tt).2
  = Returned None
  ∧ (@tree_select nat unit demo_interrupting ([Key KEY_DOWN] ++ [Key 10])
       0%nat tt).2 = Returned None.
Proof.
  destruct (@interrupt_during_fetch_returns_none nat unit demo_interrupting)
    as [Hroot Hkey].
  split.
  - apply (Hroot [Key KEY_DOWN] 1%nat tt tt). reflexivity.
  - rewrite (Hkey [Key KEY_DOWN] 0%nat tt tt
               (@tree_select nat unit demo_interrupting [Key KEY_DOWN]
                  0%nat tt).1
               1%nat 1%nat
               {| id := 1%nat; label := "B"; parent := Some 0%nat;
                  children := []; loaded := false; expanded := false |} 10).
    + reflexivity.
    + vm_compute. reflexivity.
    + exists [(0, 0); (1, 1)]%nat.
      split_and!; [vm_compute; reflexivity|vm_compute; discriminate|
                   vm_compute; reflexivity].
    + vm_compute. reflexivity.
    + reflexivity.
    + reflexivity.
    + do 2 right. left.
Defined.

Lemma root_fetch_failure_gives_lone_root_witness :
  ∃ st,
    tree_select [] 1%nat tt = (st, Waiting)
    ∧ visible_of st = Some [(0%nat, 0%nat)]
    ∧ tree_select [Key 10] 1%nat tt = (st, Returned (Some 1%nat)).
Proof.
  destruct (@root_fetch_failure_gives_lone_root nat unit demo 1%nat tt tt)
    as (st & H1 & H2 & _ & _ & _ & Hsel); [reflexivity|].
  exists st. split_and!; [exact H1|exact H2|].
  apply Hsel. left.
Defined.

Lemma rows_drawn_between_header_and_footer_witness :
  length demo_calls = 3%nat
  ∧ ∀ (k : nat) c, demo_calls !! k = Some c → 2 ≤ draw_row c < 7 - 2.
Proof.
  destruct (@rows_drawn_between_header_and_footer nat demo_counts 7 80
              (heap demo_expanded) 2
              [(0, 0); (1, 1); (2, 1); (4, 2); (5, 2); (3, 1)]%nat
              demo_calls) as [Hlen Hrows]; [vm_compute; reflexivity|].
  split; [exact Hlen|].
  intros k c Hk. by destruct (Hrows k c Hk) as (_ & Hr & _).
Defined.

(** On a screen of seven lines the rows of the example session are drawn,
    with room for six nested calls. *)
Lemma cursor_row_highlighted_if_on_screen_witness :
  let st := (@tree_select_within nat unit demo 6 demo_keys 0%nat tt).1 in
  let vis := [(0, 0); (1, 1); (2, 1); (4, 2); (5, 2); (3, 1)]%nat in
  ∃ calls,
    draw_rows 7 80 (heap st) (clamp (cursor st) vis) 0 vis = Some calls
    ∧ (∀ (k : nat) c, calls !! k = Some c →
         draw_attr c = A_REVERSE ↔ Z.of_nat k = cursor st)
    ∧ ((∃ c, c ∈ calls ∧ draw_attr c = A_REVERSE) ↔ cursor st < 7 - 4).
Proof.
  intros st vis.
  apply (@cursor_row_highlighted_if_on_screen nat unit demo demo_counts
           6 demo_keys 0%nat tt 7 80 vis).
  vm_compute. reflexivity.
Defined.

